(** * smokey.js: smoke paths and their particles

    A shallow embedding of [src/smokey.js] (classes [PathSegment], [Path],
    [Figure], [Smoke], [SmokeParticle]) and the properties of its
    specification.

    Numbers.  JavaScript numbers are idealised as real numbers [R]: rounding,
    NaN and the infinities of IEEE 754 are outside the model.  Integer-valued
    quantities that the source only ever compares with literals or uses as
    loop counters are [Z] or [nat].

    Host.  The p5.js globals the sketch calls ([random], [noise], [millis],
    [floor], [createVector], [p5.Vector]) are not part of the repository;
    they are modelled after the p5.js reference, with the pseudo-random
    generator and the clock as oracle streams threaded through a small
    state-and-exception monad. *)

From Stdlib Require Import Reals Lra Lia ZArith List.
From stdpp Require Import list.
From Equations Require Import Equations.
Import ListNotations.

#[local] Open Scope R_scope.

(** ** Completions and the sketch monad *)

(** The only exception a statement of the source can raise is the
    [TypeError] of reading a property of [undefined]. *)
Inductive Exception : Type :=
| TypeError.

Inductive Completion (A : Type) : Type :=
| Normal (a : A)
| Throw (e : Exception).
Arguments Normal {A} a.
Arguments Throw {A} e.

(** The host environment: the successive outputs of the pseudo-random
    generator, the coherent-noise field, the successive readings of the
    millisecond clock, and how many of each have been consumed. *)
Record Host : Type := mkHost {
  randomSource : nat -> R;
  noiseField : R -> R;
  clockSource : nat -> R;
  draws : nat;
  ticks : nat
}.

Definition Sketch (A : Type) : Type := Host -> Completion (A * Host).

Definition ret {A} (a : A) : Sketch A := fun h => Normal (a, h).

Definition bind {A B} (m : Sketch A) (k : A -> Sketch B) : Sketch B :=
  fun h => match m h with
           | Normal (a, h') => k a h'
           | Throw e => Throw e
           end.

Declare Scope sketch_scope.
Delimit Scope sketch_scope with sketch.
Notation "'let*' x ':=' m 'in' k" := (bind m (fun x => k))
  (at level 10, x name, m at level 100, k at level 200) : sketch_scope.

(** ** p5.js globals *)

(** One raw draw of the generator, in [0, 1) for a well-formed host. *)
Definition rawRandom : Sketch R :=
  fun h => Normal (randomSource h (draws h),
                   mkHost (randomSource h) (noiseField h) (clockSource h)
                          (S (draws h)) (ticks h)).

(** [random(max)] is [rand * max]. *)
Definition random1 (max : R) : Sketch R :=
  (let* rand := rawRandom in ret (rand * max))%sketch.

(** [random(min, max)] swaps its bounds when [min > max] and returns
    [rand * (max - min) + min]. *)
Definition random2 (min max : R) : Sketch R :=
  (let* rand := rawRandom in
   if Rgt_dec min max then ret (rand * (min - max) + max)
   else ret (rand * (max - min) + min))%sketch.

Definition noise (x : R) : Sketch R :=
  fun h => Normal (noiseField h x, h).

Definition millis : Sketch R :=
  fun h => Normal (clockSource h (ticks h),
                   mkHost (randomSource h) (noiseField h) (clockSource h)
                          (draws h) (S (ticks h))).

Definition floor (x : R) : Z := Zfloor x.

Definition HALF_PI : R := PI / 2.

(** A host whose generator stays in [0, 1), as p5's [random()] does. *)
Definition wellFormedHost (h : Host) : Prop :=
  forall n, 0 <= randomSource h n < 1.

Definition TWO_PI : R := 2 * PI.

(** What the sketch sends to the drawing context, in order: the calls of
    [push], [pop], [noStroke], [fill] (with the channels of the colour) and
    [ellipse]. *)
Inductive DrawCommand : Type :=
| Push
| Pop
| NoStroke
| Fill (red green blue alpha : R)
| Ellipse (x y diameter : R).

(** A [p5.Color] in RGB mode, channels in 0..255. *)
Record Color : Type := mkColor {
  red : R;
  green : R;
  blue : R;
  opacity : R
}.

Definition setAlpha (a : R) (c : Color) : Color :=
  mkColor (red c) (green c) (blue c) a.

Definition fill (c : Color) : DrawCommand :=
  Fill (red c) (green c) (blue c) (opacity c).

(** ** p5.Vector, restricted to the plane *)

Module p5.
Module Vector.

Record t : Type := mk { x : R; y : R }.

Definition copy (v : t) : t := v.

(** [v.add(w)] and the static [p5.Vector.add(v, w)] compute the same sum;
    the first stores it in [v], the second in a fresh vector. *)
Definition add (v w : t) : t := mk (x v + x w) (y v + y w).

Definition mult (v : t) (n : R) : t := mk (x v * n) (y v * n).

Definition mag (v : t) : R := sqrt (x v * x v + y v * y v).

Definition normalize (v : t) : t :=
  let len := mag v in
  if Req_dec_T len 0 then v else mult v (1 / len).

Definition setMag (v : t) (n : R) : t := mult (normalize v) n.

Definition fromAngle (angle length : R) : t :=
  mk (length * cos angle) (length * sin angle).

End Vector.
End p5.

Definition createVector (x y : R) : p5.Vector.t := p5.Vector.mk x y.

(** ** class PathSegment *)

Module PathSegment.

Record t : Type := new { angle : R; distance : R }.

Definition copy (this : t) : t := new (angle this) (distance this).

End PathSegment.

(** ** class SmokeParticle *)

Module SmokeParticle.

Record t : Type := mk {
  xoffOrigin : R;
  speed : R;
  distance : R;
  creationTime : R;
  lastTime : R;
  position : p5.Vector.t;
  xoffAngleStart : R;
  xoffAngle : R;
  gap : R;
  alpha : R;
  alphaDirection : Z;
  isAlive : bool
}.

Definition set_position (v : p5.Vector.t) (this : t) : t :=
  mk (xoffOrigin this) (speed this) (distance this) (creationTime this)
     (lastTime this) v (xoffAngleStart this) (xoffAngle this) (gap this)
     (alpha this) (alphaDirection this) (isAlive this).

Definition set_alpha (a : R) (this : t) : t :=
  mk (xoffOrigin this) (speed this) (distance this) (creationTime this)
     (lastTime this) (position this) (xoffAngleStart this) (xoffAngle this)
     (gap this) a (alphaDirection this) (isAlive this).

Definition set_alphaDirection (d : Z) (this : t) : t :=
  mk (xoffOrigin this) (speed this) (distance this) (creationTime this)
     (lastTime this) (position this) (xoffAngleStart this) (xoffAngle this)
     (gap this) (alpha this) d (isAlive this).

Definition set_isAlive (b : bool) (this : t) : t :=
  mk (xoffOrigin this) (speed this) (distance this) (creationTime this)
     (lastTime this) (position this) (xoffAngleStart this) (xoffAngle this)
     (gap this) (alpha this) (alphaDirection this) b.

Definition fadeIn (this : t) : t :=
  set_alphaDirection 1 (set_alpha 0 this).

Definition fadeOut (this : t) : t :=
  set_alphaDirection (-1) (set_alpha 255 this).

(** [new SmokeParticle(distanceOffset, xoffOrigin)]; [None] stands for an
    omitted (or null) [xoffOrigin]. *)
Definition constructor (distanceOffset : R) (xoffOrigin : option R)
  : Sketch t :=
  (let* xoffOrigin := match xoffOrigin with
                       | None => random1 2000000
                       | Some xo => ret xo
                       end in
   let* speed := random2 100 150 in
   let* creationTime := millis in
   let* xoffAngleStart := random1 2000000 in
   let* gap := random1 20 in
   ret (fadeIn (mk xoffOrigin speed distanceOffset creationTime creationTime
                   (createVector 0 0) xoffAngleStart 0 gap 255 0%Z true)))%sketch.

Definition update (this : t) (time : R) : t :=
  let elapsed := (time - creationTime this) / 1000 in
  let delta := (time - lastTime this) / 1000 in
  let this :=
    mk (xoffOrigin this) (speed this) (speed this * elapsed)
       (creationTime this) time (position this) (xoffAngleStart this)
       (xoffAngleStart this + elapsed * 2) (gap this) (alpha this)
       (alphaDirection this) (isAlive this) in
  if Req_dec_T delta 0 then this
  else if (alphaDirection this =? 1)%Z then
    let this := set_alpha (alpha this + 300 * delta) this in
    if Rge_dec (alpha this) 255
    then set_alphaDirection 0 (set_alpha 255 this)
    else this
  else if (alphaDirection this =? -1)%Z then
    let this := set_alpha (alpha this - 300 * delta) this in
    if Rle_dec (alpha this) 0
    then set_isAlive false (set_alphaDirection 0 (set_alpha 0 this))
    else this
  else this.

(** [draw()]: the dot is drawn at the end of a jitter vector of length
    [gap] laid off from the particle's position. *)
Definition draw (this : t) : Sketch (list DrawCommand) :=
  (let* nv := noise (xoffAngle this) in
   let vector := p5.Vector.fromAngle (nv * TWO_PI) (gap this) in
   let vector := p5.Vector.add vector (position this) in
   ret [Ellipse (p5.Vector.x vector) (p5.Vector.y vector) 3])%sketch.

End SmokeParticle.

(** ** class Path *)

(** Paths as values.  Outside [Path.copy] the sketch never mutates an
    object that is reachable from two places (the vector that
    [calculateParticlePositions] shares between the particles it pins is not
    touched again), so an object is the value of its fields; the object
    store that [copy] needs is modelled separately in [Store]. *)
Module Path.

Record t : Type := mk {
  originPosition : p5.Vector.t;
  originHeading : R;
  segments : list PathSegment.t
}.

Definition constructor : t := mk (createVector 0 0) 0 [].

Definition addSegment (segment : PathSegment.t) (this : t) : t :=
  mk (originPosition this) (originHeading this) (segments this ++ [segment]).

End Path.

(** ** class Figure extends Path *)

Module Figure.

(** A figure adds no state to a path. *)
Definition t : Type := Path.t.

(** [draw()], as the list of vertices it emits between [beginShape] and
    [endShape]. *)
Fixpoint draw_loop (segments : list PathSegment.t)
    (position : p5.Vector.t) (heading : R) : list p5.Vector.t :=
  match segments with
  | [] => []
  | segment :: rest =>
      let heading := heading + PathSegment.angle segment in
      let vector := p5.Vector.fromAngle heading (PathSegment.distance segment) in
      let position := p5.Vector.add position vector in
      position :: draw_loop rest position heading
  end.

Definition draw (this : t) : list p5.Vector.t :=
  let position := p5.Vector.copy (Path.originPosition this) in
  position :: draw_loop (Path.segments this) position (Path.originHeading this).

End Figure.

(** Lifting of a computation that may throw but does not touch the host. *)
Definition lift {A} (c : Completion A) : Sketch A :=
  fun h => match c with
           | Normal a => Normal (a, h)
           | Throw e => Throw e
           end.

(** ** class Smoke extends Figure *)

Module Smoke.

Record t : Type := mk {
  super : Figure.t;
  particles : list SmokeParticle.t
}.

Definition originPosition (this : t) := Path.originPosition (super this).
Definition originHeading (this : t) := Path.originHeading (super this).
Definition segments (this : t) := Path.segments (super this).

Definition set_particles (ps : list SmokeParticle.t) (this : t) : t :=
  mk (super this) ps.

Definition addSegment (segment : PathSegment.t) (this : t) : t :=
  mk (Path.addSegment segment (super this)) (particles this).

(** The object literal [{offset, heading}] that [walkToSegment] returns. *)
Record Location : Type := mkLocation {
  offset : p5.Vector.t;
  heading : R
}.

(** The [for] loop of [walkToSegment]: [i] is the loop variable and [n] the
    number of iterations the guard [i < figure.segments.length] still
    allows, so [n = 0] is the failing guard. *)
Fixpoint walkToSegment_loop (figure : Figure.t) (branchIndex : R)
    (n i : nat) (position : p5.Vector.t) (heading : R)
  : Completion Location :=
  match n with
  | O => Normal (mkLocation position heading)
  | S n' =>
      if Rge_dec (INR i) branchIndex then Normal (mkLocation position heading)
      else
        match Path.segments figure !! i with
        | None => Throw TypeError
        | Some segment =>
            let heading := heading + PathSegment.angle segment in
            let vector :=
              p5.Vector.fromAngle heading (PathSegment.distance segment) in
            walkToSegment_loop figure branchIndex n' (S i)
              (p5.Vector.add position vector) heading
        end
  end.

Definition walkToSegment (figure : Figure.t) (branchIndex : R)
  : Completion Location :=
  walkToSegment_loop figure branchIndex (length (Path.segments figure)) 0
    (p5.Vector.copy (Path.originPosition figure)) (Path.originHeading figure).

(** The [for] loop of [createSmokePath], [n] iterations left. *)
Fixpoint createSmokePath_loop (n : nat) (xoff : R) (this : t) : Sketch t :=
  match n with
  | O => ret this
  | S n' =>
      (let* nv := noise xoff in
       let angle := (nv - 0.5) * HALF_PI / 10 in
       let segment := PathSegment.new angle 2 in
       createSmokePath_loop n' (xoff + 0.004) (addSegment segment this))%sketch
  end.

(** [i < length] holds for [i = 0, ..., length - 1]: no iteration when
    [length <= 0]. *)
Definition createSmokePath (length : Z) (this : t) : Sketch t :=
  (let* xoff := random1 2000000 in
   createSmokePath_loop (Z.to_nat length) xoff this)%sketch.

Definition spawnParticle (this : t) : Sketch t :=
  (let length := INR (length (particles this)) * 2 in
   let* distanceOffset := random1 length in
   let* particle := SmokeParticle.constructor distanceOffset None in
   ret (set_particles (particles this ++ [particle]) this))%sketch.

(** The [for] loop of [prepareParticles], [n] iterations left. *)
Fixpoint prepareParticles_loop (n : nat) (this : t) : Sketch t :=
  match n with
  | O => ret this
  | S n' =>
      (let* this := spawnParticle this in
       prepareParticles_loop n' this)%sketch
  end.

Definition prepareParticles (this : t) : Sketch t :=
  prepareParticles_loop 2 (set_particles [] this).

(** [new Smoke(figure, branchIndex, minLength, maxLength)]; [None] stands
    for an omitted argument (and, for [branchIndex], also for null). *)
Definition constructor (figure : Figure.t) (branchIndex : option R)
    (minLength maxLength : option R) : Sketch t :=
  (let minLength := default 50 minLength in
   let maxLength := default 100 maxLength in
   let this := mk Path.constructor [] in
   let* branchIndex :=
     match branchIndex with
     | None =>
         let* r := random1 (INR (length (Path.segments figure))) in
         ret (IZR (floor r))
     | Some b => ret b
     end in
   let* location := lift (walkToSegment figure branchIndex) in
   let this :=
     mk (Path.mk (offset location) (heading location) (segments this))
        (particles this) in
   let* r := random2 minLength maxLength in
   let length := floor r in
   let* this := createSmokePath length this in
   prepareParticles this)%sketch.

(** *** Per-frame update *)

(** [Array.prototype.sort] with the comparator [a.distance - b.distance]:
    ascending by distance and stable. *)
Fixpoint sort_insert (a : SmokeParticle.t) (l : list SmokeParticle.t)
  : list SmokeParticle.t :=
  match l with
  | [] => [a]
  | b :: l' =>
      if Rle_dec (SmokeParticle.distance a - SmokeParticle.distance b) 0
      then a :: b :: l'
      else b :: sort_insert a l'
  end.

Definition sort (l : list SmokeParticle.t) : list SmokeParticle.t :=
  fold_right sort_insert [] l.

(** How the [while (true)] loop of [calculateParticlePositions] is left:
    by [return] with the particles, or by [break] with the loop state. *)
Inductive WhileExit : Type :=
| Returned (particles : list SmokeParticle.t)
| Broke (particles : list SmokeParticle.t) (particleIndex : nat)
        (remainingDistance : R).

(** The three statements that place a particle on the current segment:
    a copy of the segment's vector is cut to [remainingDistance] and added
    to the running position. *)
Definition placeAt (position vector : p5.Vector.t) (remainingDistance : R)
    (particle : SmokeParticle.t) : SmokeParticle.t :=
  let workVector := p5.Vector.copy vector in
  let workVector := p5.Vector.setMag workVector remainingDistance in
  SmokeParticle.set_position (p5.Vector.add position workVector) particle.

(** The [while (true)] loop for one segment.  Every iteration that does not
    leave the loop increments [particleIndex] below [particles.length]. *)
Equations? placeParticles (segment : PathSegment.t)
    (vector position : p5.Vector.t) (particles : list SmokeParticle.t)
    (particleIndex : nat) (remainingDistance : R)
  : Completion WhileExit
  by wf (length particles - particleIndex)%nat lt :=
placeParticles segment vector position particles particleIndex
    remainingDistance
  with Rge_dec (PathSegment.distance segment) remainingDistance => {
  | right _ := Normal (Broke particles particleIndex remainingDistance)
  | left _ with particles !! particleIndex => {
    | None := Throw TypeError
    | Some particle
      with le_dec
             (length (<[particleIndex :=
                         placeAt position vector remainingDistance particle]>
                        particles))
             (S particleIndex) => {
      | left _ :=
          Normal (Returned
                    (<[particleIndex :=
                        placeAt position vector remainingDistance particle]>
                       particles))
      | right _ :=
          let particles :=
            <[particleIndex :=
                placeAt position vector remainingDistance particle]>
              particles in
          let particleIndex := S particleIndex in
          match particles !! particleIndex,
                particles !! (particleIndex - 1)%nat with
          | Some current, Some previous =>
              placeParticles segment vector position particles particleIndex
                (remainingDistance
                 + (SmokeParticle.distance current
                    - SmokeParticle.distance previous))
          | _, _ => Throw TypeError
          end } } }.
Proof.
  subst particles1 particleIndex.
  rewrite length_insert in *. lia.
Qed.

(** The final [for] loop of [calculateParticlePositions]: [i] is the loop
    variable, [n] the number of iterations [i < particles.length] allows. *)
Fixpoint pinParticles (position : p5.Vector.t) (n i : nat)
    (particles : list SmokeParticle.t)
  : Completion (list SmokeParticle.t) :=
  match n with
  | O => Normal particles
  | S n' =>
      match particles !! i with
      | None => Throw TypeError
      | Some particle =>
          let particle := SmokeParticle.set_position position particle in
          let particle :=
            if (SmokeParticle.alphaDirection particle =? -1)%Z then particle
            else SmokeParticle.fadeOut particle in
          pinParticles position n' (S i) (<[i := particle]> particles)
      end
  end.

(** The [for (const segment of this.segments)] loop, followed by the final
    loop. *)
Fixpoint walkSegments (segments : list PathSegment.t)
    (particles : list SmokeParticle.t) (particleIndex : nat)
    (remainingDistance : R) (position : p5.Vector.t) (heading : R)
  : Completion (list SmokeParticle.t) :=
  match segments with
  | [] =>
      pinParticles position (length particles - particleIndex) particleIndex
        particles
  | segment :: rest =>
      let heading := heading + PathSegment.angle segment in
      let vector :=
        p5.Vector.fromAngle heading (PathSegment.distance segment) in
      match placeParticles segment vector position particles particleIndex
              remainingDistance with
      | Throw e => Throw e
      | Normal (Returned particles) => Normal particles
      | Normal (Broke particles particleIndex remainingDistance) =>
          walkSegments rest particles particleIndex
            (remainingDistance - p5.Vector.mag vector)
            (p5.Vector.add position vector) heading
      end
  end.

Definition calculateParticlePositions (this : t) : Completion t :=
  match particles this with
  | [] => Normal this
  | first :: _ =>
      let particleIndex := 0%nat in
      let remainingDistance := SmokeParticle.distance first in
      let position := p5.Vector.copy (originPosition this) in
      let heading := originHeading this in
      match walkSegments (segments this) (particles this) particleIndex
              remainingDistance position heading with
      | Normal particles => Normal (set_particles particles this)
      | Throw e => Throw e
      end
  end.

Definition update (this : t) : Sketch t :=
  (let* time := millis in
   let particles :=
     List.filter SmokeParticle.isAlive
       (map (fun p => SmokeParticle.update p time) (particles this)) in
   let particles := sort particles in
   lift (calculateParticlePositions (set_particles particles this)))%sketch.

(** *** Rendering *)

(** The [forEach] of [draw]: the one colour object gets the particle's
    alpha before each [fill]. *)
Fixpoint draw_loop (particleColor : Color) (particles : list SmokeParticle.t)
  : Sketch (list DrawCommand) :=
  match particles with
  | [] => ret []
  | particle :: rest =>
      (let particleColor :=
         setAlpha (SmokeParticle.alpha particle) particleColor in
       let* dot := SmokeParticle.draw particle in
       let* others := draw_loop particleColor rest in
       ret (fill particleColor :: dot ++ others))%sketch
  end.

(** [draw()]; [color('#ffff00ff')] is opaque yellow.  The path itself is not
    drawn: the call of [super.draw()] is commented out in the source. *)
Definition draw (this : t) : Sketch (list DrawCommand) :=
  (let particleColor := mkColor 255 255 0 255 in
   let* dots := draw_loop particleColor (particles this) in
   ret ([Push; NoStroke] ++ dots ++ [Pop]))%sketch.

End Smoke.

(** ** The object store of [Path.copy]

    [Path.copy] is the one place where the identity of objects matters: the
    copy keeps a reference to the original's origin vector and gets a fresh
    array of fresh segments.  Here objects live in a store, fields that hold
    objects hold references, and the methods are written in a
    state-and-exception monad over the store.  An object enters the store
    when its constructor has initialised its fields. *)

Module Store.

Abbreviation ref := nat.

Inductive object : Type :=
| VectorObj (v : p5.Vector.t)
| PathSegmentObj (angle distance : R)
| ArrayObj (elements : list ref)
| PathObj (originPosition : ref) (originHeading : R) (segments : ref).

Abbreviation store := (list object).

Definition Heap (A : Type) : Type := store -> Completion (A * store).

Definition ret {A} (a : A) : Heap A := fun h => Normal (a, h).

Definition bind {A B} (m : Heap A) (k : A -> Heap B) : Heap B :=
  fun h => match m h with
           | Normal (a, h') => k a h'
           | Throw e => Throw e
           end.

Definition throw {A} (e : Exception) : Heap A := fun _ => Throw e.

Declare Scope heap_scope.
Delimit Scope heap_scope with heap.
Notation "'let*' x ':=' m 'in' k" := (bind m (fun x => k))
  (at level 10, x name, m at level 100, k at level 200) : heap_scope.

(** [new]: the next free reference is the size of the store. *)
Definition alloc (o : object) : Heap ref :=
  fun h => Normal (length h, h ++ [o]).

Definition read (r : ref) : Heap object :=
  fun h => match h !! r with
           | Some o => Normal (o, h)
           | None => Throw TypeError
           end.

Definition write (r : ref) (o : object) : Heap unit :=
  fun h => Normal (tt, <[r := o]> h).

(** [array.push(element)]. *)
Definition push (array element : ref) : Heap unit :=
  (let* o := read array in
   match o with
   | ArrayObj elements => write array (ArrayObj (elements ++ [element]))
   | _ => throw TypeError
   end)%heap.

(** [array.forEach(callback)]: the length is read once, the elements are
    read from the live array, index by index; [n] indices are left and [k]
    is the next one. *)
Fixpoint forEach_loop (array : ref) (n k : nat) (callback : ref -> Heap unit)
  : Heap unit :=
  match n with
  | O => ret tt
  | S n' =>
      (let* o := read array in
       match o with
       | ArrayObj elements =>
           match elements !! k with
           | Some element =>
               let* _ := callback element in
               forEach_loop array n' (S k) callback
           | None => forEach_loop array n' (S k) callback
           end
       | _ => throw TypeError
       end)%heap
  end.

Definition forEach (array : ref) (callback : ref -> Heap unit) : Heap unit :=
  (let* o := read array in
   match o with
   | ArrayObj elements => forEach_loop array (length elements) 0 callback
   | _ => throw TypeError
   end)%heap.

Module PathSegment.

Definition constructor (angle distance : R) : Heap ref :=
  alloc (PathSegmentObj angle distance).

Definition copy (this : ref) : Heap ref :=
  (let* o := read this in
   match o with
   | PathSegmentObj angle distance => constructor angle distance
   | _ => throw TypeError
   end)%heap.

End PathSegment.

Module Path.

Definition constructor : Heap ref :=
  (let* originPosition := alloc (VectorObj (createVector 0 0)) in
   let* segments := alloc (ArrayObj []) in
   alloc (PathObj originPosition 0 segments))%heap.

Definition get_originPosition (this : ref) : Heap ref :=
  (let* o := read this in
   match o with
   | PathObj originPosition _ _ => ret originPosition
   | _ => throw TypeError
   end)%heap.

Definition get_originHeading (this : ref) : Heap R :=
  (let* o := read this in
   match o with
   | PathObj _ originHeading _ => ret originHeading
   | _ => throw TypeError
   end)%heap.

Definition get_segments (this : ref) : Heap ref :=
  (let* o := read this in
   match o with
   | PathObj _ _ segments => ret segments
   | _ => throw TypeError
   end)%heap.

Definition set_originPosition (this v : ref) : Heap unit :=
  (let* o := read this in
   match o with
   | PathObj _ originHeading segments =>
       write this (PathObj v originHeading segments)
   | _ => throw TypeError
   end)%heap.

Definition set_originHeading (this : ref) (heading : R) : Heap unit :=
  (let* o := read this in
   match o with
   | PathObj originPosition _ segments =>
       write this (PathObj originPosition heading segments)
   | _ => throw TypeError
   end)%heap.

Definition addSegment (this segment : ref) : Heap unit :=
  (let* segments := get_segments this in
   push segments segment)%heap.

Definition copy (this : ref) : Heap ref :=
  (let* path := constructor in
   let* originPosition := get_originPosition this in
   let* _ := set_originPosition path originPosition in
   let* originHeading := get_originHeading this in
   let* _ := set_originHeading path originHeading in
   let* segments := get_segments this in
   let* _ := forEach segments
               (fun segment =>
                  let* segment' := PathSegment.copy segment in
                  addSegment path segment') in
   ret path)%heap.

End Path.

(** The segment sequence of a path object, as references and as values. *)
Definition segmentRefs (h : store) (path : ref) : option (list ref) :=
  match h !! path with
  | Some (PathObj _ _ segments) =>
      match h !! segments with
      | Some (ArrayObj elements) => Some elements
      | _ => None
      end
  | _ => None
  end.

Definition segmentValue (h : store) (segment : ref) : option (R * R) :=
  match h !! segment with
  | Some (PathSegmentObj angle distance) => Some (angle, distance)
  | _ => None
  end.

Definition segmentValues (h : store) (path : ref) : option (list (R * R)) :=
  match segmentRefs h path with
  | Some elements => mapM (segmentValue h) elements
  | None => None
  end.

(** The references a path object holds to its origin vector and to its
    segment array. *)
Definition originRef (h : store) (path : ref) : option ref :=
  match h !! path with
  | Some (PathObj originPosition _ _) => Some originPosition
  | _ => None
  end.

Definition arrayRef (h : store) (path : ref) : option ref :=
  match h !! path with
  | Some (PathObj _ _ segments) => Some segments
  | _ => None
  end.

(** A path object as the constructor and [addSegment] leave it: its
    [segments] field holds an array, and every element of the array is a
    [PathSegment]. *)
Definition wellFormedPath (h : store) (path : ref) : Prop :=
  is_Some (segmentValues h path).

Definition segmentObj (v : R * R) : object :=
  PathSegmentObj (fst v) (snd v).

(** The store after [this.copy()], for a path [this] with origin reference
    [originPosition], heading [originHeading] and segments of values
    [values]: three objects for the new path (its constructor's vector,
    its array, itself) and one per copied segment. *)
Definition copiedStore (h : store) (originPosition : ref) (originHeading : R)
    (values : list (R * R)) : store :=
  h ++ [VectorObj (createVector 0 0);
        ArrayObj (seq (length h + 3)%nat (length values));
        PathObj originPosition originHeading (length h + 1)%nat]
    ++ map segmentObj values.

End Store.

(** ** Vocabulary of the specification *)

(** Everything the source ever does to an existing particle: its own three
    methods, and the assignment to [position] in
    [Smoke.calculateParticlePositions]. *)
Inductive Mutation : Type :=
| Update (time : R)
| FadeIn
| FadeOut
| SetPosition (v : p5.Vector.t).

Definition mutate (p : SmokeParticle.t) (m : Mutation) : SmokeParticle.t :=
  match m with
  | Update time => SmokeParticle.update p time
  | FadeIn => SmokeParticle.fadeIn p
  | FadeOut => SmokeParticle.fadeOut p
  | SetPosition v => SmokeParticle.set_position v p
  end.

Definition mutations (ms : list Mutation) (p : SmokeParticle.t)
  : SmokeParticle.t :=
  fold_left mutate ms p.

(** Sum of the angles of a run of segments. *)
Definition angleSum (segments : list PathSegment.t) : R :=
  fold_right Rplus 0 (map PathSegment.angle segments).

(** Total arc length of a run of segments. *)
Definition totalLength (segments : list PathSegment.t) : R :=
  fold_right Rplus 0 (map PathSegment.distance segments).

(** Cumulative heading at segment [i]: the origin heading plus the angles of
    segments 0..i. *)
Definition cumulativeHeading (figure : Figure.t) (i : nat) : R :=
  Path.originHeading figure + angleSum (take (S i) (Path.segments figure)).

(** Directional vector of segment [i]: its cumulative heading and its own
    distance. *)
Definition directionalVector (figure : Figure.t) (i : nat) : p5.Vector.t :=
  match Path.segments figure !! i with
  | Some segment =>
      p5.Vector.fromAngle (cumulativeHeading figure i)
        (PathSegment.distance segment)
  | None => createVector 0 0
  end.

Definition vectorSum (vs : list p5.Vector.t) : p5.Vector.t :=
  fold_right p5.Vector.add (createVector 0 0) vs.

(** Position and heading after a run of segments is walked from a given
    position and heading. *)
Fixpoint traverse (segments : list PathSegment.t) (position : p5.Vector.t)
    (heading : R) : Smoke.Location :=
  match segments with
  | [] => Smoke.mkLocation position heading
  | segment :: rest =>
      let heading := heading + PathSegment.angle segment in
      traverse rest
        (p5.Vector.add position
           (p5.Vector.fromAngle heading (PathSegment.distance segment)))
        heading
  end.

(** The directional vectors of a run of segments walked from a heading. *)
Fixpoint directions (segments : list PathSegment.t) (heading : R)
  : list p5.Vector.t :=
  match segments with
  | [] => []
  | segment :: rest =>
      let heading := heading + PathSegment.angle segment in
      p5.Vector.fromAngle heading (PathSegment.distance segment)
      :: directions rest heading
  end.

(** The segments [createSmokePath] generates in [n] iterations from the
    noise coordinate [xoff]. *)
Fixpoint smokeSegments (noiseField : R -> R) (n : nat) (xoff : R)
  : list PathSegment.t :=
  match n with
  | O => []
  | S n' =>
      PathSegment.new ((noiseField xoff - 0.5) * HALF_PI / 10) 2
      :: smokeSegments noiseField n' (xoff + 0.004)
  end.

(** A particle as its constructor leaves it: fading in from alpha 0, alive,
    never updated. *)
Definition freshParticle (p : SmokeParticle.t) : Prop :=
  SmokeParticle.lastTime p = SmokeParticle.creationTime p /\
  SmokeParticle.alpha p = 0 /\
  SmokeParticle.alphaDirection p = 1%Z /\
  SmokeParticle.isAlive p = true.

(** A completion that signals an error. *)
Definition signalsError {A} (c : Completion A) : Prop :=
  exists e, c = Throw e.

(** What the final loop of [calculateParticlePositions] does to a particle:
    the position is assigned, and [fadeOut] is called unless the particle is
    fading out already. *)
Definition pin (position : p5.Vector.t) (p : SmokeParticle.t)
  : SmokeParticle.t :=
  let p := SmokeParticle.set_position position p in
  if (SmokeParticle.alphaDirection p =? -1)%Z then p
  else SmokeParticle.fadeOut p.

(** The state of the particle array during [calculateParticlePositions],
    against the array [orig] it started from: the particles below index [a]
    have been given a position on the path, those from [a] to below [b]
    have been pinned at [position], the others are untouched. *)
Definition zones (orig ps : list SmokeParticle.t) (a b : nat)
    (position : p5.Vector.t) : Prop :=
  length ps = length orig /\
  (forall j q, (j < a)%nat -> orig !! j = Some q ->
     exists v, ps !! j = Some (SmokeParticle.set_position v q)) /\
  (forall j q, (a <= j < b)%nat -> orig !! j = Some q ->
     ps !! j = Some (pin position q)) /\
  (forall j, (b <= j)%nat -> ps !! j = orig !! j).

(** A particle brought to time [time], with the given alpha, fade direction
    and liveness: what [update] always does to the other fields. *)
Definition advanced (p : SmokeParticle.t) (time : R) (alpha : R)
    (alphaDirection : Z) (isAlive : bool) : SmokeParticle.t :=
  let elapsed := (time - SmokeParticle.creationTime p) / 1000 in
  SmokeParticle.mk (SmokeParticle.xoffOrigin p) (SmokeParticle.speed p)
    (SmokeParticle.speed p * elapsed) (SmokeParticle.creationTime p) time
    (SmokeParticle.position p) (SmokeParticle.xoffAngleStart p)
    (SmokeParticle.xoffAngleStart p + elapsed * 2) (SmokeParticle.gap p)
    alpha alphaDirection isAlive.

(** The mutations [calculateParticlePositions] performs. *)
Definition positioning (m : Mutation) : Prop :=
  match m with
  | SetPosition _ | FadeOut => True
  | Update _ | FadeIn => False
  end.

(** The point of a path at a given arc length, found by walking the path
    for that arc length alone: on the first segment that is long enough for
    what remains, the segment's vector cut to the remainder is laid off from
    the segment's start.  [None] when the path ends first. *)
Fixpoint pointAt (segments : list PathSegment.t) (position : p5.Vector.t)
    (heading : R) (remainingDistance : R) : option p5.Vector.t :=
  match segments with
  | [] => None
  | segment :: rest =>
      let heading := heading + PathSegment.angle segment in
      let vector :=
        p5.Vector.fromAngle heading (PathSegment.distance segment) in
      if Rge_dec (PathSegment.distance segment) remainingDistance
      then Some (p5.Vector.add position
                   (p5.Vector.setMag vector remainingDistance))
      else pointAt rest (p5.Vector.add position vector) heading
             (remainingDistance - p5.Vector.mag vector)
  end.

(** Particles in ascending order of distance. *)
Definition ascending (ps : list SmokeParticle.t) : Prop :=
  forall i j p q, (i <= j)%nat -> ps !! i = Some p -> ps !! j = Some q ->
    SmokeParticle.distance p <= SmokeParticle.distance q.

(** The last vertex of the polyline [Figure.draw] emits. *)
Definition finalVertex (figure : Figure.t) : p5.Vector.t :=
  List.last (Figure.draw figure) (Path.originPosition figure).

(** Where a particle of a Smoke belongs: at the point of the path at its
    distance, or pinned at the final vertex when the path is shorter. *)
Definition locate (this : Smoke.t) (p : SmokeParticle.t) : SmokeParticle.t :=
  match pointAt (Smoke.segments this) (Smoke.originPosition this)
          (Smoke.originHeading this) (SmokeParticle.distance p) with
  | Some v => SmokeParticle.set_position v p
  | None => pin (finalVertex (Smoke.super this)) p
  end.

(** ** Sample inputs *)

(** A particle that is fading in, 0.1 s after its creation. *)
Definition sampleParticle : SmokeParticle.t :=
  SmokeParticle.mk 7 120 0 1000 1100 (createVector 0 0) 3 0.2 5 30 1%Z true.


(** A figure of two segments: a quarter turn and 3 units, then 4 units
    straight on. *)
Definition sampleFigure : Figure.t :=
  Path.mk (createVector 1 2) 0
    [PathSegment.new (PI / 2) 3; PathSegment.new 0 4].

(** A figure without segments, and one with a single segment. *)
Definition emptyFigure : Figure.t := Path.constructor.

Definition oneSegmentFigure : Figure.t :=
  Path.addSegment (PathSegment.new 0 5) Path.constructor.

(** A host whose generator always answers one half, whose noise is flat and
    whose clock stands at 4000 ms. *)
Definition sampleHost : Host :=
  mkHost (fun _ => 1 / 2) (fun _ => 1 / 2) (fun _ => 4000) 0 0.

(** A Smoke with a straight path of arc length 4 and two particles, the
    second one beyond the end of the path and still fading in. *)
Definition sampleSmoke : Smoke.t :=
  Smoke.mk
    (Path.mk (createVector 0 0) 0 [PathSegment.new 0 2; PathSegment.new 0 2])
    [SmokeParticle.mk 7 120 1 1000 1100 (createVector 0 0) 3 0.2 5 30 1%Z true;
     SmokeParticle.mk 8 130 9 1000 1100 (createVector 0 0) 4 0.2 6 30 1%Z true].

(** A particle that is fading out, at alpha 30. *)
Definition fadingParticle : SmokeParticle.t :=
  SmokeParticle.mk 7 120 300 1000 3500 (createVector 0 0) 3 0.2 5 30 (-1)%Z
    true.

(** A store with one path of two segments: its origin vector at 0, its
    array at 1, the path at 2, the segments at 3 and 4; 3 is also the
    reference of the segment added in the examples. *)
Definition sampleStore : Store.store :=
  [Store.VectorObj (createVector 0 0);
   Store.ArrayObj [3%nat; 4%nat];
   Store.PathObj 0%nat 0 1%nat;
   Store.PathSegmentObj 0.1 2;
   Store.PathSegmentObj 0.2 2].

(** A host whose noise stays in [0, 1], as p5's [noise()] does. *)
Definition boundedNoise (h : Host) : Prop :=
  forall x, 0 <= noiseField h x <= 1.
(** * Properties *)

(** ** SmokeParticle *)

Section ParticleFacts.

Import SmokeParticle.

Variable p : SmokeParticle.t.

Lemma update_speed time : speed (update p time) = speed p.
Proof.
  unfold update.
  repeat match goal with |- context [if ?c then _ else _] => destruct c end;
    reflexivity.
Qed.

Lemma update_creationTime time :
  creationTime (update p time) = creationTime p.
Proof.
  unfold update.
  repeat match goal with |- context [if ?c then _ else _] => destruct c end;
    reflexivity.
Qed.

Lemma update_distance time :
  distance (update p time) = speed p * ((time - creationTime p) / 1000).
Proof.
  unfold update.
  repeat match goal with |- context [if ?c then _ else _] => destruct c end;
    reflexivity.
Qed.

Lemma update_lastTime time : lastTime (update p time) = time.
Proof.
  unfold update.
  repeat match goal with |- context [if ?c then _ else _] => destruct c end;
    reflexivity.
Qed.

Lemma update_position time : position (update p time) = position p.
Proof.
  unfold update.
  repeat match goal with |- context [if ?c then _ else _] => destruct c end;
    reflexivity.
Qed.

Lemma update_dead time : isAlive p = false -> isAlive (update p time) = false.
Proof.
  intros Hdead. unfold update.
  repeat match goal with |- context [if ?c then _ else _] => destruct c end;
    simpl; auto.
Qed.

End ParticleFacts.

Lemma mutate_speed p m :
  SmokeParticle.speed (mutate p m) = SmokeParticle.speed p.
Proof. destruct m; simpl; auto using update_speed. Qed.

Lemma mutate_creationTime p m :
  SmokeParticle.creationTime (mutate p m) = SmokeParticle.creationTime p.
Proof. destruct m; simpl; auto using update_creationTime. Qed.

Lemma mutate_dead p m :
  SmokeParticle.isAlive p = false ->
  SmokeParticle.isAlive (mutate p m) = false.
Proof. destruct m; simpl; auto using update_dead. Qed.

Lemma mutations_speed ms : forall p,
  SmokeParticle.speed (mutations ms p) = SmokeParticle.speed p.
Proof.
  induction ms as [|m ms IH]; intros p; simpl; [reflexivity|].
  unfold mutations in IH. rewrite IH. apply mutate_speed.
Qed.

Lemma mutations_creationTime ms : forall p,
  SmokeParticle.creationTime (mutations ms p) = SmokeParticle.creationTime p.
Proof.
  induction ms as [|m ms IH]; intros p; simpl; [reflexivity|].
  unfold mutations in IH. rewrite IH. apply mutate_creationTime.
Qed.

Lemma mutations_dead ms : forall p,
  SmokeParticle.isAlive p = false ->
  SmokeParticle.isAlive (mutations ms p) = false.
Proof.
  induction ms as [|m ms IH]; intros p Hdead; simpl; [assumption|].
  apply IH. now apply mutate_dead.
Qed.

Lemma mutations_app ms1 ms2 p :
  mutations (ms1 ++ ms2) p = mutations ms2 (mutations ms1 p).
Proof. apply fold_left_app. Qed.

(** C5. Alpha bounds: if a particle's alpha is in [0, 255] and [update] is
    called with a time at or after the particle's [lastTime], the alpha after
    the call is again in [0, 255], however large the time delta: the fade-in
    increment is clamped at 255 and the fade-out decrement at 0. *)
Theorem update_alpha_bounds (p : SmokeParticle.t) (time : R) :
  0 <= SmokeParticle.alpha p <= 255 ->
  SmokeParticle.lastTime p <= time ->
  0 <= SmokeParticle.alpha (SmokeParticle.update p time) <= 255.
Proof.
  intros Halpha Htime. unfold SmokeParticle.update.
  destruct (Req_dec_T _ _) as [Hz|Hnz]; simpl; [lra|].
  destruct (SmokeParticle.alphaDirection p =? 1)%Z; simpl.
  - destruct (Rge_dec _ _) as [Hge|Hlt]; simpl; lra.
  - destruct (SmokeParticle.alphaDirection p =? -1)%Z; simpl; [|lra].
    destruct (Rle_dec _ _) as [Hle|Hgt]; simpl; lra.
Qed.

Lemma update_alpha_bounds_witness :
  0 <= SmokeParticle.alpha (SmokeParticle.update sampleParticle 99000) <= 255.
Proof.
  apply (update_alpha_bounds sampleParticle 99000); simpl; lra.
Defined.

(** C9. Distance monotonicity: for a particle of positive speed and update
    times [T1 < T2] at or after its creation, the distance computed at [T2]
    is at least the one computed at [T1], whatever the source does to the
    particle in between (nothing resets speed or creation time): distance is
    recomputed as speed times the seconds elapsed since creation. *)
Theorem update_distance_monotone (p : SmokeParticle.t)
    (between : list Mutation) (T1 T2 : R) :
  0 < SmokeParticle.speed p ->
  SmokeParticle.creationTime p <= T1 ->
  T1 < T2 ->
  let p1 := SmokeParticle.update p T1 in
  let p2 := SmokeParticle.update (mutations between p1) T2 in
  SmokeParticle.distance p1 =
    SmokeParticle.speed p * ((T1 - SmokeParticle.creationTime p) / 1000) /\
  SmokeParticle.distance p2 =
    SmokeParticle.speed p * ((T2 - SmokeParticle.creationTime p) / 1000) /\
  SmokeParticle.distance p1 <= SmokeParticle.distance p2.
Proof.
  intros Hspeed Hcreated Hlt p1 p2.
  assert (H1 : SmokeParticle.distance p1 =
    SmokeParticle.speed p * ((T1 - SmokeParticle.creationTime p) / 1000))
    by apply update_distance.
  assert (H2 : SmokeParticle.distance p2 =
    SmokeParticle.speed p * ((T2 - SmokeParticle.creationTime p) / 1000)).
  { unfold p2. rewrite update_distance, mutations_speed,
      mutations_creationTime.
    unfold p1. now rewrite update_speed, update_creationTime. }
  repeat split; try assumption.
  rewrite H1, H2. apply Rmult_le_compat_l; lra.
Qed.

Lemma update_distance_monotone_witness :
  let p1 := SmokeParticle.update sampleParticle 1200 in
  let p2 :=
    SmokeParticle.update (mutations [FadeOut; Update 1300] p1) 2000 in
  SmokeParticle.distance p1 =
    SmokeParticle.speed sampleParticle
    * ((1200 - SmokeParticle.creationTime sampleParticle) / 1000) /\
  SmokeParticle.distance p2 =
    SmokeParticle.speed sampleParticle
    * ((2000 - SmokeParticle.creationTime sampleParticle) / 1000) /\
  SmokeParticle.distance p1 <= SmokeParticle.distance p2.
Proof.
  apply (update_distance_monotone sampleParticle [FadeOut; Update 1300]
           1200 2000); simpl; lra.
Defined.

(** ** Plane vectors *)

Lemma vector_add_assoc u v w :
  p5.Vector.add (p5.Vector.add u v) w = p5.Vector.add u (p5.Vector.add v w).
Proof. unfold p5.Vector.add; simpl. f_equal; ring. Qed.

Lemma vector_add_zero u : p5.Vector.add u (createVector 0 0) = u.
Proof. destruct u. unfold p5.Vector.add; simpl. f_equal; ring. Qed.

(** The magnitude of [fromAngle(heading, length)] is [length] when the
    length is not negative. *)
Lemma mag_fromAngle heading length :
  0 <= length -> p5.Vector.mag (p5.Vector.fromAngle heading length) = length.
Proof.
  intros Hlen. unfold p5.Vector.mag, p5.Vector.fromAngle; simpl.
  replace (length * cos heading * (length * cos heading)
           + length * sin heading * (length * sin heading))
    with (Rsqr length * (Rsqr (sin heading) + Rsqr (cos heading)))
    by (unfold Rsqr; ring).
  rewrite sin2_cos2, Rmult_1_r. now apply sqrt_Rsqr.
Qed.

(** ** Smoke.walkToSegment *)

Section WalkToSegment.

Variable figure : Figure.t.
Variable branchIndex : R.

(** The loop, started at index [i] with [n] segments left, applies exactly
    the next [m] segments when their indices are below [branchIndex] and
    the loop stops there, by its guard or by its [break]. *)
Lemma walkToSegment_loop_spec : forall n i m position heading,
  (i + n = length (Path.segments figure))%nat ->
  (m <= n)%nat ->
  (forall j, (i <= j < i + m)%nat -> INR j < branchIndex) ->
  m = n \/ INR (i + m) >= branchIndex ->
  Smoke.walkToSegment_loop figure branchIndex n i position heading =
  Normal (traverse (take m (drop i (Path.segments figure))) position heading).
Proof.
  induction n as [|n IH]; intros i m position heading Hlen Hm Hbelow Hstop.
  - assert (m = 0%nat) by lia. subst m. reflexivity.
  - simpl. destruct m as [|m].
    + destruct Hstop as [Hstop|Hstop]; [discriminate|].
      rewrite Nat.add_0_r in Hstop.
      destruct (Rge_dec (INR i) branchIndex) as [_|Hn]; [|contradiction].
      reflexivity.
    + destruct (Rge_dec (INR i) branchIndex) as [Hge|_].
      { specialize (Hbelow i ltac:(lia)). lra. }
      destruct (Path.segments figure !! i) as [segment|] eqn:Hseg.
      2:{ apply lookup_ge_None in Hseg. lia. }
      rewrite (drop_S _ _ _ Hseg). simpl.
      apply IH; try lia.
      * intros j Hj. apply Hbelow. lia.
      * destruct Hstop as [Hstop|Hstop]; [left; lia|right].
        now replace (S i + m)%nat with (i + S m)%nat by lia.
Qed.

End WalkToSegment.

(** With an index that is a natural number, the first [k] segments are
    walked. *)
Lemma walkToSegment_take figure k :
  Smoke.walkToSegment figure (INR k) =
  Normal (traverse (take k (Path.segments figure))
            (Path.originPosition figure) (Path.originHeading figure)).
Proof.
  unfold Smoke.walkToSegment, p5.Vector.copy.
  set (n := length (Path.segments figure)).
  rewrite (walkToSegment_loop_spec figure (INR k) n 0 (Nat.min k n));
    try lia.
  - rewrite drop_0. f_equal. f_equal.
    destruct (Nat.le_ge_cases k n) as [H|H].
    + now rewrite Nat.min_l.
    + rewrite Nat.min_r by assumption.
      now rewrite !take_ge by (fold n; lia).
  - intros j Hj. apply lt_INR. lia.
  - destruct (Nat.le_ge_cases k n) as [H|H].
    + right. rewrite Nat.min_l by assumption. simpl. lra.
    + left. now rewrite Nat.min_r.
Qed.

(** With an index at or past the number of segments, all are walked. *)
Lemma walkToSegment_all figure branchIndex :
  INR (length (Path.segments figure)) <= branchIndex ->
  Smoke.walkToSegment figure branchIndex =
  Normal (traverse (Path.segments figure)
            (Path.originPosition figure) (Path.originHeading figure)).
Proof.
  intros Hpast. unfold Smoke.walkToSegment, p5.Vector.copy.
  set (n := length (Path.segments figure)).
  rewrite (walkToSegment_loop_spec figure branchIndex n 0 n); try lia.
  - rewrite drop_0. now rewrite take_ge by (fold n; lia).
  - intros j Hj. apply Rlt_le_trans with (INR n); [|assumption].
    apply lt_INR. lia.
Qed.

(** [walkToSegment] never throws. *)
Lemma walkToSegment_normal figure branchIndex :
  exists location, Smoke.walkToSegment figure branchIndex = Normal location.
Proof.
  unfold Smoke.walkToSegment.
  generalize (p5.Vector.copy (Path.originPosition figure)).
  generalize (Path.originHeading figure).
  assert (Hgen : forall n i heading position,
    (i + n = length (Path.segments figure))%nat ->
    exists location,
      Smoke.walkToSegment_loop figure branchIndex n i position heading =
      Normal location).
  { induction n as [|n IH]; intros i heading position Hlen; simpl.
    - eauto.
    - destruct (Rge_dec _ _); [eauto|].
      destruct (Path.segments figure !! i) eqn:Hseg.
      + apply IH. lia.
      + apply lookup_ge_None in Hseg. lia. }
  intros heading position. now apply Hgen.
Qed.

Lemma traverse_heading segments : forall position heading,
  Smoke.heading (traverse segments position heading) =
  heading + angleSum segments.
Proof.
  induction segments as [|s segments IH]; intros position heading; simpl.
  - unfold angleSum; simpl. ring.
  - rewrite IH. unfold angleSum; simpl. ring.
Qed.

Lemma traverse_offset segments : forall position heading,
  Smoke.offset (traverse segments position heading) =
  p5.Vector.add position (vectorSum (directions segments heading)).
Proof.
  induction segments as [|s segments IH]; intros position heading; simpl.
  - now rewrite vector_add_zero.
  - rewrite IH. apply vector_add_assoc.
Qed.

(** The directional vectors of a run, segment by segment: heading plus the
    angles up to and including the segment, and the segment's distance. *)
Lemma directions_closed segments : forall heading,
  directions segments heading =
  map (fun i =>
         match segments !! i with
         | Some segment =>
             p5.Vector.fromAngle (heading + angleSum (take (S i) segments))
               (PathSegment.distance segment)
         | None => createVector 0 0
         end)
      (seq 0 (length segments)).
Proof.
  induction segments as [|s segments IH]; intros heading; [reflexivity|].
  cbn [directions length seq map]. f_equal.
  - cbn. f_equal. unfold angleSum. destruct segments; simpl; ring.
  - rewrite IH, <- seq_shift, map_map. apply map_ext. intros i.
    cbn [lookup list_lookup]. destruct (segments !! i); [|reflexivity].
    f_equal. unfold angleSum. cbn. ring.
Qed.

Lemma directions_take figure k :
  (k <= length (Path.segments figure))%nat ->
  directions (take k (Path.segments figure)) (Path.originHeading figure) =
  map (directionalVector figure) (seq 0 k).
Proof.
  intros Hk. rewrite directions_closed, length_take_le by assumption.
  apply map_ext_in. intros i Hi. apply in_seq in Hi.
  unfold directionalVector, cumulativeHeading.
  rewrite lookup_take_lt by lia.
  rewrite take_take, Nat.min_l by lia. reflexivity.
Qed.

(** C3. Path replay consistency: for a branch index [k] with
    [0 <= k <= figure.segments.length], [walkToSegment] returns the heading
    [originHeading] plus the sum of the angles of segments [0..k), and the
    position [originPosition] plus the vector sum of the directional vectors
    (cumulative heading, own distance) of those segments; any figure with
    the same origin and the same first [k] segments gives the same result,
    whatever its segments at index [k] and later are. *)
Theorem walkToSegment_replay (figure : Figure.t) (k : nat) :
  (0 <= k <= length (Path.segments figure))%nat ->
  exists location,
    Smoke.walkToSegment figure (INR k) = Normal location /\
    Smoke.heading location =
      Path.originHeading figure + angleSum (take k (Path.segments figure)) /\
    Smoke.offset location =
      p5.Vector.add (Path.originPosition figure)
        (vectorSum (map (directionalVector figure) (seq 0 k))) /\
    forall figure' : Figure.t,
      Path.originPosition figure' = Path.originPosition figure ->
      Path.originHeading figure' = Path.originHeading figure ->
      take k (Path.segments figure') = take k (Path.segments figure) ->
      Smoke.walkToSegment figure' (INR k) = Normal location.
Proof.
  intros [_ Hk]. eexists. split; [apply walkToSegment_take|].
  split; [apply traverse_heading|]. split.
  - rewrite traverse_offset. now rewrite directions_take.
  - intros figure' Hpos Hhead Hsegs.
    rewrite walkToSegment_take. now rewrite Hpos, Hhead, Hsegs.
Qed.

Lemma walkToSegment_replay_witness :
  exists location,
    Smoke.walkToSegment sampleFigure (INR 1) = Normal location /\
    Smoke.heading location =
      Path.originHeading sampleFigure
      + angleSum (take 1 (Path.segments sampleFigure)) /\
    Smoke.offset location =
      p5.Vector.add (Path.originPosition sampleFigure)
        (vectorSum (map (directionalVector sampleFigure) (seq 0 1))) /\
    forall figure' : Figure.t,
      Path.originPosition figure' = Path.originPosition sampleFigure ->
      Path.originHeading figure' = Path.originHeading sampleFigure ->
      take 1 (Path.segments figure') = take 1 (Path.segments sampleFigure) ->
      Smoke.walkToSegment figure' (INR 1) = Normal location.
Proof.
  apply (walkToSegment_replay sampleFigure 1). simpl. lia.
Defined.

Lemma last_cons_default {A} (l : list A) : forall a d d',
  List.last (a :: l) d = List.last (a :: l) d'.
Proof.
  induction l as [|b l IH]; intros a d d'; [reflexivity|].
  change (List.last (b :: l) d = List.last (b :: l) d'). apply IH.
Qed.

(** The polyline of [Figure.draw] ends where the traversal of all segments
    ends. *)
Lemma draw_loop_last segments : forall position heading,
  List.last (position :: Figure.draw_loop segments position heading) position =
  Smoke.offset (traverse segments position heading).
Proof.
  induction segments as [|s segments IH]; intros position heading;
    [reflexivity|].
  cbn [Figure.draw_loop traverse].
  rewrite <- IH.
  change (List.last (?a :: ?b :: ?l) ?d) with (List.last (b :: l) d).
  apply last_cons_default.
Qed.

Lemma finalVertex_traverse figure :
  finalVertex figure =
  Smoke.offset (traverse (Path.segments figure)
                  (Path.originPosition figure) (Path.originHeading figure)).
Proof.
  unfold finalVertex, Figure.draw, p5.Vector.copy. apply draw_loop_last.
Qed.

(** C10. For a branch index at or past [figure.segments.length],
    [walkToSegment] does not throw: it walks every segment and returns the
    position and heading of the figure's final endpoint, the result it gives
    for [figure.segments.length] itself. *)
Theorem walkToSegment_past_end (figure : Figure.t) (branchIndex : R) :
  INR (length (Path.segments figure)) <= branchIndex ->
  exists location,
    Smoke.walkToSegment figure branchIndex = Normal location /\
    Smoke.walkToSegment figure (INR (length (Path.segments figure))) =
      Normal location /\
    Smoke.offset location = finalVertex figure /\
    Smoke.heading location =
      Path.originHeading figure + angleSum (Path.segments figure).
Proof.
  intros Hpast. eexists. split; [now apply walkToSegment_all|].
  split; [apply walkToSegment_all; lra|].
  split; [now rewrite finalVertex_traverse|apply traverse_heading].
Qed.

Lemma walkToSegment_past_end_witness :
  exists location,
    Smoke.walkToSegment sampleFigure 7.5 = Normal location /\
    Smoke.walkToSegment sampleFigure
      (INR (length (Path.segments sampleFigure))) = Normal location /\
    Smoke.offset location = finalVertex sampleFigure /\
    Smoke.heading location =
      Path.originHeading sampleFigure
      + angleSum (Path.segments sampleFigure).
Proof.
  apply (walkToSegment_past_end sampleFigure 7.5). simpl. lra.
Defined.

(** ** Smoke construction *)

Lemma floor_IZR z : floor (IZR z) = z.
Proof. unfold floor. apply Zfloor_eq. lra. Qed.

Lemma smokeSegments_length noiseField n : forall xoff,
  length (smokeSegments noiseField n xoff) = n.
Proof. induction n as [|n IH]; intros xoff; simpl; auto. Qed.

Lemma smokeSegments_distance noiseField n : forall xoff,
  Forall (fun segment => PathSegment.distance segment = 2)
    (smokeSegments noiseField n xoff).
Proof.
  induction n as [|n IH]; intros xoff; simpl; constructor; auto.
Qed.

Lemma smokeSegments_totalLength noiseField n : forall xoff,
  totalLength (smokeSegments noiseField n xoff) = 2 * INR n.
Proof.
  induction n as [|n IH]; intros xoff.
  - unfold totalLength; simpl. ring.
  - rewrite S_INR. unfold totalLength in *; cbn [smokeSegments map fold_right].
    rewrite IH. simpl. ring.
Qed.

Lemma createSmokePath_loop_spec n : forall xoff this h,
  Smoke.createSmokePath_loop n xoff this h =
  Normal
    (Smoke.mk
       (Path.mk (Smoke.originPosition this) (Smoke.originHeading this)
          (Smoke.segments this ++ smokeSegments (noiseField h) n xoff))
       (Smoke.particles this), h).
Proof.
  induction n as [|n IH]; intros xoff this h.
  - simpl. unfold ret. rewrite app_nil_r. now destruct this as [[? ? ?] ?].
  - cbn [Smoke.createSmokePath_loop]. unfold bind, noise. rewrite IH.
    cbn. now rewrite <- app_assoc.
Qed.

(** What [spawnParticle] does: five draws and one reading of the clock, and
    a fresh particle appended whose distance is the first draw times twice
    the number of particles there were. *)
Lemma spawnParticle_spec this h :
  exists particle h',
    Smoke.spawnParticle this h =
      Normal (Smoke.set_particles (Smoke.particles this ++ [particle]) this,
              h') /\
    SmokeParticle.distance particle =
      randomSource h (draws h) * (INR (length (Smoke.particles this)) * 2) /\
    SmokeParticle.creationTime particle = clockSource h (ticks h) /\
    freshParticle particle /\
    randomSource h' = randomSource h /\
    noiseField h' = noiseField h /\
    clockSource h' = clockSource h /\
    draws h' = (draws h + 5)%nat /\
    ticks h' = S (ticks h).
Proof.
  unfold Smoke.spawnParticle, SmokeParticle.constructor, bind, random1,
    random2, rawRandom, millis, ret, bind. cbn.
  destruct (Rgt_dec 100 150) as [Hgt|_]; [lra|]. cbn.
  eexists. eexists. split; [reflexivity|]. cbn.
  unfold freshParticle. cbn. repeat split; try reflexivity. lia.
Qed.

(** What the constructor does, draw by draw. *)
Lemma constructor_spec figure branchIndex minLength maxLength h :
  let minL := default 50 minLength in
  let maxL := default 100 maxLength in
  let d := match branchIndex with
           | None => S (draws h)
           | Some _ => draws h
           end in
  let b := match branchIndex with
           | None =>
               IZR (floor (randomSource h (draws h)
                           * INR (length (Path.segments figure))))
           | Some b => b
           end in
  let r := if Rgt_dec minL maxL
           then randomSource h d * (minL - maxL) + maxL
           else randomSource h d * (maxL - minL) + minL in
  exists location s h' p0 p1,
    Smoke.constructor figure branchIndex minLength maxLength h =
      Normal (s, h') /\
    Smoke.walkToSegment figure b = Normal location /\
    Smoke.originPosition s = Smoke.offset location /\
    Smoke.originHeading s = Smoke.heading location /\
    Smoke.segments s =
      smokeSegments (noiseField h) (Z.to_nat (floor r))
        (randomSource h (S d) * 2000000) /\
    Smoke.particles s = [p0; p1] /\
    SmokeParticle.distance p0 = randomSource h (d + 2) * (INR 0 * 2) /\
    SmokeParticle.distance p1 = randomSource h (d + 7) * (INR 1 * 2) /\
    freshParticle p0 /\ freshParticle p1 /\
    SmokeParticle.creationTime p0 = clockSource h (ticks h) /\
    SmokeParticle.creationTime p1 = clockSource h (S (ticks h)) /\
    randomSource h' = randomSource h /\
    noiseField h' = noiseField h /\
    clockSource h' = clockSource h /\
    ticks h' = S (S (ticks h)).
Proof.
  intros minL maxL d b r.
  destruct (walkToSegment_normal figure b) as [location Hwalk].
  set (this0 := Smoke.mk
                  (Path.mk (Smoke.offset location) (Smoke.heading location)
                     (smokeSegments (noiseField h) (Z.to_nat (floor r))
                        (randomSource h (S d) * 2000000))) []).
  set (h2 := mkHost (randomSource h) (noiseField h) (clockSource h)
               (S (S d)) (ticks h)).
  destruct (spawnParticle_spec this0 h2)
    as (p0 & h3 & Hs0 & Hd0 & Hc0 & Hf0 & Hr3 & Hn3 & Hk3 & Hdr3 & Ht3).
  destruct (spawnParticle_spec
              (Smoke.set_particles (Smoke.particles this0 ++ [p0]) this0) h3)
    as (p1 & h4 & Hs1 & Hd1 & Hc1 & Hf1 & Hr4 & Hn4 & Hk4 & Hdr4 & Ht4).
  exists location, (Smoke.set_particles [p0; p1] this0), h4, p0, p1.
  split.
  - assert (Hrest : forall h1,
      randomSource h1 = randomSource h -> noiseField h1 = noiseField h ->
      clockSource h1 = clockSource h -> draws h1 = d -> ticks h1 = ticks h ->
      (let* location := lift (Smoke.walkToSegment figure b) in
       let this :=
         Smoke.mk (Path.mk (Smoke.offset location) (Smoke.heading location)
                     (Smoke.segments (Smoke.mk Path.constructor [])))
           (Smoke.particles (Smoke.mk Path.constructor [])) in
       let* r := random2 minL maxL in
       let length := floor r in
       let* this := Smoke.createSmokePath length this in
       Smoke.prepareParticles this)%sketch h1 =
      Normal (Smoke.set_particles [p0; p1] this0, h4)).
    { intros h1 E1 E2 E3 E4 E5.
      unfold bind at 1. unfold lift. rewrite Hwalk.
      unfold bind at 1.
      assert (Hr : random2 minL maxL h1 = Normal (r, mkHost (randomSource h)
                     (noiseField h) (clockSource h) (S d) (ticks h))).
      { unfold random2, bind, rawRandom, ret. rewrite E1, E2, E3, E4, E5.
        unfold r. now destruct (Rgt_dec minL maxL). }
      rewrite Hr. unfold bind at 1.
      unfold Smoke.createSmokePath, bind, random1, rawRandom, ret, bind.
      cbn [randomSource noiseField clockSource draws ticks].
      rewrite createSmokePath_loop_spec.
      cbn [randomSource noiseField clockSource draws ticks].
      unfold Smoke.prepareParticles. cbn [Smoke.prepareParticles_loop].
      unfold bind at 1.
      change (Smoke.spawnParticle _ _) with (Smoke.spawnParticle this0 h2).
      rewrite Hs0. unfold bind at 1. rewrite Hs1. reflexivity. }
    unfold Smoke.constructor. fold minL maxL.
    destruct branchIndex as [b0|].
    + unfold bind at 1. unfold ret at 1. now apply Hrest.
    + unfold bind at 1. unfold bind at 1, random1, rawRandom, ret.
      cbn [bind]. unfold bind at 1. apply Hrest; reflexivity.
  - subst this0 h2. cbn in *.
    split_and!; try assumption; try reflexivity.
    + rewrite Hd0. f_equal. f_equal. lia.
    + rewrite Hd1, Hr3, Hdr3. f_equal. f_equal. lia.
    + now rewrite Hc1, Hk3, Ht3.
    + now rewrite Hr4, Hr3.
    + now rewrite Hn4, Hn3.
    + now rewrite Hk4, Hk3.
    + now rewrite Ht4, Ht3.
Qed.

Lemma sampleHost_wellFormed : wellFormedHost sampleHost.
Proof. intros n. simpl. lra. Qed.

(** C4. A Smoke constructed with the default [minLength] and [maxLength]
    gets a path whose number of segments lies between 50 and 100 inclusive,
    whatever values in [0, 1) the random source returns. *)
Theorem constructor_default_length (figure : Figure.t)
    (branchIndex : option R) (h : Host) :
  wellFormedHost h ->
  exists s h',
    Smoke.constructor figure branchIndex None None h = Normal (s, h') /\
    (50 <= length (Smoke.segments s) <= 100)%nat.
Proof.
  intros Hwf.
  destruct (constructor_spec figure branchIndex None None h)
    as (location & s & h' & p0 & p1 & Hc & _ & _ & _ & Hsegs & _).
  exists s, h'. split; [exact Hc|].
  rewrite Hsegs, smokeSegments_length. cbv [from_option Datatypes.id].
  destruct (Rgt_dec 50 100) as [Hgt|_]; [lra|].
  set (rand := randomSource h _).
  assert (Hrand : 0 <= rand < 1) by apply Hwf.
  set (r := rand * (100 - 50) + 50).
  assert (Hlow : (50 <= floor r)%Z) by (apply Zfloor_lub; unfold r; lra).
  assert (Hhigh : (floor r < 100)%Z).
  { apply lt_IZR. pose proof (Zfloor_bound r) as [Hb _].
    unfold floor. unfold r in *. lra. }
  lia.
Qed.

Lemma constructor_default_length_witness :
  exists s h',
    Smoke.constructor sampleFigure None None None sampleHost =
      Normal (s, h') /\
    (50 <= length (Smoke.segments s) <= 100)%nat.
Proof.
  apply (constructor_default_length sampleFigure None sampleHost).
  intros n. simpl. lra.
Defined.

(** The constructor never throws. *)
Lemma constructor_normal figure branchIndex minLength maxLength h :
  exists s h',
    Smoke.constructor figure branchIndex minLength maxLength h =
      Normal (s, h') /\
    length (Smoke.particles s) = 2%nat.
Proof.
  destruct (constructor_spec figure branchIndex minLength maxLength h)
    as (location & s & h' & p0 & p1 & Hc & _ & _ & _ & _ & Hps & _).
  exists s, h'. split; [exact Hc|]. now rewrite Hps.
Qed.

(** C8, as the specification states it, fails: a parent without segments,
    negative lengths, and [maxLength < minLength] are all accepted; the
    constructor signals nothing. *)
Lemma constructor_validation_counterexample :
  (Path.segments emptyFigure = [] /\
   ~ signalsError
       (Smoke.constructor emptyFigure None None None sampleHost)) /\
  (-5 < 0 /\ -1 < 0 /\
   ~ signalsError
       (Smoke.constructor sampleFigure (Some 0) (Some (-5)) (Some (-1))
          sampleHost)) /\
  (50 < 100 /\
   ~ signalsError
       (Smoke.constructor sampleFigure (Some 0) (Some 100) (Some 50)
          sampleHost)).
Proof.
  repeat split; try reflexivity; try lra.
  - destruct (constructor_normal emptyFigure None None None sampleHost)
      as (s & h' & Hc & _).
    intros [e He]. rewrite Hc in He. discriminate.
  - destruct (constructor_normal sampleFigure (Some 0) (Some (-5))
                (Some (-1)) sampleHost) as (s & h' & Hc & _).
    intros [e He]. rewrite Hc in He. discriminate.
  - destruct (constructor_normal sampleFigure (Some 0) (Some 100) (Some 50)
                sampleHost) as (s & h' & Hc & _).
    intros [e He]. rewrite Hc in He. discriminate.
Qed.

(** C8, amended. Constructing a Smoke from a parent Figure with zero
    segments, or with a negative [minLength] or [maxLength], or with
    [maxLength < minLength], signals no error: the constructor validates
    nothing, completes normally and yields a Smoke with its two particles. *)
Theorem constructor_accepts_invalid_arguments (figure : Figure.t)
    (branchIndex minLength maxLength : option R) (h : Host) :
  Path.segments figure = [] \/
  default 50 minLength < 0 \/
  default 100 maxLength < 0 \/
  default 100 maxLength < default 50 minLength ->
  exists s h',
    Smoke.constructor figure branchIndex minLength maxLength h =
      Normal (s, h') /\
    ~ signalsError
        (Smoke.constructor figure branchIndex minLength maxLength h) /\
    length (Smoke.particles s) = 2%nat.
Proof.
  intros _.
  destruct (constructor_normal figure branchIndex minLength maxLength h)
    as (s & h' & Hc & Hps).
  exists s, h'. repeat split; try assumption.
  intros [e He]. rewrite Hc in He. discriminate.
Qed.

Lemma constructor_accepts_invalid_arguments_witness :
  exists s h',
    Smoke.constructor emptyFigure None (Some (-5)) (Some (-9)) sampleHost =
      Normal (s, h') /\
    ~ signalsError
        (Smoke.constructor emptyFigure None (Some (-5)) (Some (-9))
           sampleHost) /\
    length (Smoke.particles s) = 2%nat.
Proof.
  apply (constructor_accepts_invalid_arguments emptyFigure None (Some (-5))
           (Some (-9)) sampleHost).
  left. reflexivity.
Defined.

(** X17. What the accepted arguments silently produce: with a parent
    without segments and no branch index, the random branch index is 0 and
    the Smoke starts at the parent's origin, with the parent's heading. *)
Lemma constructor_empty_parent figure minLength maxLength h :
  Path.segments figure = [] ->
  exists s h',
    Smoke.constructor figure None minLength maxLength h = Normal (s, h') /\
    Smoke.originPosition s = Path.originPosition figure /\
    Smoke.originHeading s = Path.originHeading figure.
Proof.
  intros Hempty.
  destruct (constructor_spec figure None minLength maxLength h)
    as (location & s & h' & p0 & p1 & Hc & Hw & Hpos & Hhead & _).
  exists s, h'. split; [exact Hc|].
  unfold Smoke.walkToSegment in Hw. rewrite Hempty in Hw. simpl in Hw.
  injection Hw as <-. now rewrite Hpos, Hhead.
Qed.

(** X18. With both lengths negative (and a generator in [0, 1)) the
    constructor completes with a path that has no segment at all. *)
Lemma constructor_negative_lengths figure branchIndex minLength maxLength h :
  wellFormedHost h ->
  minLength < 0 -> maxLength < 0 ->
  exists s h',
    Smoke.constructor figure branchIndex (Some minLength) (Some maxLength) h =
      Normal (s, h') /\
    Smoke.segments s = [].
Proof.
  intros Hwf Hmin Hmax.
  destruct (constructor_spec figure branchIndex (Some minLength)
              (Some maxLength) h)
    as (location & s & h' & p0 & p1 & Hc & _ & _ & _ & Hsegs & _).
  exists s, h'. split; [exact Hc|]. rewrite Hsegs. cbv [from_option Datatypes.id].
  set (rand := randomSource h _).
  assert (Hrand : 0 <= rand < 1) by apply Hwf.
  match goal with |- smokeSegments _ (Z.to_nat (floor ?r)) _ = _ =>
    assert (Hneg : (floor r < 0)%Z)
  end.
  { apply lt_IZR.
    match goal with |- IZR (floor ?r) < _ =>
      pose proof (Zfloor_bound r) as [Hb _]; unfold floor;
      assert (r < 0)
    end.
    { destruct (Rgt_dec minLength maxLength) as [Hg|Hg].
      - assert (rand * (minLength - maxLength) <= 1 * (minLength - maxLength))
          by (apply Rmult_le_compat_r; lra).
        lra.
      - assert (rand * (maxLength - minLength) <= 1 * (maxLength - minLength))
          by (apply Rmult_le_compat_r; lra).
        lra. }
    lra. }
  destruct (floor _); try lia. reflexivity.
Qed.

(** ** Smoke.calculateParticlePositions *)

(** The [while (true)] loop, unfolded once. *)
Lemma placeParticles_unfold segment vector position particles particleIndex
    remainingDistance :
  Smoke.placeParticles segment vector position particles particleIndex
    remainingDistance =
  if Rge_dec (PathSegment.distance segment) remainingDistance then
    match particles !! particleIndex with
    | None => Throw TypeError
    | Some particle =>
        let particles' :=
          <[particleIndex :=
              Smoke.placeAt position vector remainingDistance particle]>
            particles in
        if le_dec (length particles') (S particleIndex)
        then Normal (Smoke.Returned particles')
        else
          match particles' !! S particleIndex,
                particles' !! (S particleIndex - 1)%nat with
          | Some current, Some previous =>
              Smoke.placeParticles segment vector position particles'
                (S particleIndex)
                (remainingDistance
                 + (SmokeParticle.distance current
                    - SmokeParticle.distance previous))
          | _, _ => Throw TypeError
          end
    end
  else Normal (Smoke.Broke particles particleIndex remainingDistance).
Proof.
  simp placeParticles.
  destruct (Rge_dec _ _); simpl; [|reflexivity].
  destruct (particles !! particleIndex); simpl; [|reflexivity].
  destruct (le_dec _ _); simpl; reflexivity.
Qed.

Section Zones.

Variable orig : list SmokeParticle.t.

Lemma zones_length ps a b position :
  zones orig ps a b position -> length ps = length orig.
Proof. now intros [H _]. Qed.

(** Placing the particle at the boundary moves the boundary up. *)
Lemma zones_place ps a position q v :
  zones orig ps a a position ->
  orig !! a = Some q ->
  zones orig (<[a := SmokeParticle.set_position v q]> ps) (S a) (S a)
    position.
Proof.
  intros (Hlen & Hplaced & _ & Hrest) Hq.
  assert (Ha : (a < length ps)%nat).
  { rewrite Hlen. now apply lookup_lt_Some with q. }
  unfold zones. rewrite length_insert. split_and!; try assumption.
  - intros j q' Hj Hq'. destruct (decide (j = a)) as [->|Hne].
    + rewrite list_lookup_insert_eq by assumption.
      exists v. congruence.
    + rewrite list_lookup_insert_ne by congruence.
      apply Hplaced; [lia|assumption].
  - intros j q' Hj. lia.
  - intros j Hj. rewrite list_lookup_insert_ne by lia. apply Hrest. lia.
Qed.

(** Pinning the particle at the upper boundary moves that boundary up. *)
Lemma zones_pin ps a b position q :
  (a <= b)%nat ->
  zones orig ps a b position ->
  orig !! b = Some q ->
  zones orig (<[b := pin position q]> ps) a (S b) position.
Proof.
  intros Hab (Hlen & Hplaced & Hpinned & Hrest) Hq.
  assert (Hb : (b < length ps)%nat).
  { rewrite Hlen. now apply lookup_lt_Some with q. }
  unfold zones. rewrite length_insert. split_and!; try assumption.
  - intros j q' Hj Hq'. rewrite list_lookup_insert_ne by lia.
    now apply Hplaced.
  - intros j q' Hj Hq'. destruct (decide (j = b)) as [->|Hne].
    + rewrite list_lookup_insert_eq by assumption. congruence.
    + rewrite list_lookup_insert_ne by congruence.
      apply Hpinned; [lia|assumption].
  - intros j Hj. rewrite list_lookup_insert_ne by lia. apply Hrest. lia.
Qed.

(** The final loop pins every particle from [particleIndex] on. *)
Lemma pinParticles_spec position a : forall n i ps,
  (a <= i)%nat ->
  (i + n = length ps)%nat ->
  zones orig ps a i position ->
  exists ps',
    Smoke.pinParticles position n i ps = Normal ps' /\
    zones orig ps' a (length orig) position.
Proof.
  induction n as [|n IH]; intros i ps Hai Hn Hz.
  - exists ps. split; [reflexivity|].
    now replace (length orig) with i by (rewrite <- (zones_length _ _ _ _ Hz); lia).
  - cbn [Smoke.pinParticles].
    destruct (ps !! i) as [q|] eqn:Hq.
    2:{ apply lookup_ge_None in Hq. lia. }
    assert (Hoq : orig !! i = Some q).
    { destruct Hz as (_ & _ & _ & Hrest). rewrite <- Hrest by lia. exact Hq. }
    fold (pin position q).
    apply IH; [lia|rewrite length_insert; lia|].
    now apply zones_pin.
Qed.

End Zones.

Lemma zones_reposition orig ps a position position' :
  zones orig ps a a position -> zones orig ps a a position'.
Proof.
  intros (Hlen & Hplaced & _ & Hrest). unfold zones. split_and!; try assumption.
  intros j q Hj. lia.
Qed.

Lemma totalLength_nonneg segments :
  Forall (fun s => 0 <= PathSegment.distance s) segments ->
  0 <= totalLength segments.
Proof.
  unfold totalLength. induction 1 as [|s l Hs _ IH]; simpl; lra.
Qed.

Section PlaceParticles.

Variable orig : list SmokeParticle.t.
Variable segment : PathSegment.t.
Variables vector position position0 : p5.Vector.t.

(** [c] is the arc length walked before this segment: on entry the
    remaining distance is the current particle's distance minus [c].  The
    loop gives a position to the particles within reach of the segment, in
    order, and stops at the first one beyond it. *)
Lemma placeParticles_spec (c : R) : forall n ps idx remainingDistance q,
  (idx + S n = length ps)%nat ->
  zones orig ps idx idx position0 ->
  orig !! idx = Some q ->
  remainingDistance = SmokeParticle.distance q - c ->
  exists exit,
    Smoke.placeParticles segment vector position ps idx remainingDistance =
      Normal exit /\
    match exit with
    | Smoke.Returned ps' =>
        zones orig ps' (length orig) (length orig) position0 /\
        (forall j q', (idx <= j)%nat -> orig !! j = Some q' ->
           SmokeParticle.distance q' - c <= PathSegment.distance segment)
    | Smoke.Broke ps' idx' remainingDistance' =>
        zones orig ps' idx' idx' position0 /\
        (idx <= idx')%nat /\
        (exists q', orig !! idx' = Some q' /\
           remainingDistance' = SmokeParticle.distance q' - c) /\
        (forall j q', (idx <= j < idx')%nat -> orig !! j = Some q' ->
           SmokeParticle.distance q' - c <= PathSegment.distance segment)
    end.
Proof.
  induction n as [|n IH]; intros ps idx rem q Hn Hz Hq Hrem;
    rewrite placeParticles_unfold;
    (destruct (Rge_dec _ _) as [Hge|Hlt];
     [|eexists; split; [reflexivity|]; split_and!;
       [assumption|lia|eauto|intros; lia]]);
    pose proof Hz as (Hlen & _ & _ & Hrest);
    rewrite (Hrest idx (Nat.le_refl _)), Hq; cbv zeta;
    rewrite length_insert;
    (destruct (le_dec _ _) as [Hle|Hgt]; [|try lia]).
  - (* the last particle: return *)
    eexists; split; [reflexivity|].
    assert (Hend : S idx = length orig) by lia.
    split.
    + rewrite <- Hend. now apply zones_place.
    + intros j q' Hj Hq'. apply lookup_lt_Some in Hq' as Hjlt.
      assert (j = idx) by lia. subst j.
      assert (q' = q) by congruence. subst q'. lra.
  - lia.
  - (* a further particle: next iteration *)
    unfold Smoke.placeAt. cbv zeta.
    set (v := p5.Vector.add position _).
    assert (Hz' : zones orig (<[idx := SmokeParticle.set_position v q]> ps)
                    (S idx) (S idx) position0) by now apply zones_place.
    pose proof Hz' as (_ & _ & _ & Hrest').
    destruct (orig !! S idx) as [qn|] eqn:Hqn.
    2:{ apply lookup_ge_None in Hqn. lia. }
    rewrite (Hrest' (S idx) (Nat.le_refl _)), Hqn.
    replace (S idx - 1)%nat with idx by lia.
    rewrite list_lookup_insert_eq by lia.
    destruct (IH (<[idx := SmokeParticle.set_position v q]> ps) (S idx)
                (rem + (SmokeParticle.distance qn
                        - SmokeParticle.distance
                            (SmokeParticle.set_position v q))) qn)
      as (exit & Hexit & Hpost); try assumption.
    { rewrite length_insert. lia. }
    { simpl. lra. }
    exists exit. split; [exact Hexit|].
    assert (Hfirst : forall j q', j = idx -> orig !! j = Some q' ->
              SmokeParticle.distance q' - c <= PathSegment.distance segment).
    { intros j q' -> Hq'. assert (q' = q) by congruence. subst q'. lra. }
    destruct exit as [ps'|ps' idx' rem'].
    + destruct Hpost as (Hzf & Hreach). split; [assumption|].
      intros j q' Hj Hq'. destruct (decide (j = idx)) as [E|E].
      * now apply (Hfirst j).
      * apply (Hreach j); [lia|assumption].
    + destruct Hpost as (Hzf & Hidx & Hcur & Hreach).
      split_and!; try assumption; try lia.
      intros j q' Hj Hq'. destruct (decide (j = idx)) as [E|E].
      * now apply (Hfirst j).
      * apply (Hreach j); [lia|assumption].
Qed.

End PlaceParticles.

(** The walk over the segments, started with [c] of arc length behind and
    the particle at [idx] next: it never throws; on exit the particles below
    some index [a] have a position on the path and the others are pinned
    at the end of the path; and only particles whose distance is within the
    arc length of the path are below [a]. *)
Lemma walkSegments_spec orig : forall segments ps idx remainingDistance
    position heading q c,
  Forall (fun s => 0 <= PathSegment.distance s) segments ->
  zones orig ps idx idx position ->
  orig !! idx = Some q ->
  remainingDistance = SmokeParticle.distance q - c ->
  exists ps' a,
    Smoke.walkSegments segments ps idx remainingDistance position heading =
      Normal ps' /\
    zones orig ps' a (length orig)
      (Smoke.offset (traverse segments position heading)) /\
    (idx <= a)%nat /\
    (forall j q', (idx <= j < a)%nat -> orig !! j = Some q' ->
       SmokeParticle.distance q' <= c + totalLength segments).
Proof.
  induction segments as [|segment rest IH];
    intros ps idx remaining position heading q c Hpos Hz Hq Hrem.
  - cbn [Smoke.walkSegments traverse Smoke.offset].
    pose proof (zones_length _ _ _ _ _ Hz) as Hlen.
    apply lookup_lt_Some in Hq as Hidx.
    destruct (pinParticles_spec orig position idx (length ps - idx) idx ps)
      as (ps' & Hpin & Hz'); try lia; try assumption.
    exists ps', idx. split_and!; try assumption; try lia.
  - cbn [Smoke.walkSegments traverse].
    pose proof (Forall_inv Hpos) as Hseg.
    pose proof (Forall_inv_tail Hpos) as Hrest.
    set (heading' := heading + PathSegment.angle segment).
    set (vector := p5.Vector.fromAngle heading'
                     (PathSegment.distance segment)).
    pose proof (zones_length _ _ _ _ _ Hz) as Hlen.
    apply lookup_lt_Some in Hq as Hidx.
    destruct (placeParticles_spec orig segment vector position position c
                (length ps - S idx) ps idx remaining q)
      as (exit & Hexit & Hpost); try assumption; try lia.
    rewrite Hexit.
    pose proof (totalLength_nonneg rest Hrest) as Hnonneg.
    assert (Htotal : totalLength (segment :: rest) =
                     PathSegment.distance segment + totalLength rest)
      by reflexivity.
    destruct exit as [ps'|ps' idx' remaining'].
    + destruct Hpost as (Hzf & Hreach).
      exists ps', (length orig). split_and!; try reflexivity; try lia.
      * now apply zones_reposition with position.
      * intros j q' Hj Hq'. specialize (Hreach j q' ltac:(lia) Hq'). lra.
    + destruct Hpost as (Hzf & Hle & (q' & Hq' & Hrem') & Hreach).
      destruct (IH ps' idx' (remaining' - p5.Vector.mag vector)
                  (p5.Vector.add position vector) heading' q'
                  (c + PathSegment.distance segment))
        as (ps'' & a & Hwalk & Hzw & Hia & Hwithin); try assumption.
      { now apply zones_reposition with position. }
      { unfold vector. rewrite mag_fromAngle by assumption. lra. }
      exists ps'', a. split_and!; try assumption; try lia.
      intros j q'' Hj Hq''.
      destruct (le_lt_dec idx' j) as [Hin|Hout].
      * specialize (Hwithin j q'' ltac:(lia) Hq''). lra.
      * specialize (Hreach j q'' ltac:(lia) Hq''). lra.
Qed.

Lemma zones_start orig position : zones orig orig 0 0 position.
Proof. unfold zones. split_and!; try reflexivity; intros; lia. Qed.

(** [calculateParticlePositions] never throws (for segments of non-negative
    distance); it changes nothing but the particles, which end up placed on
    the path below some index [a] and pinned at the final vertex from [a]
    on; no particle beyond the arc length of the path is below [a]. *)
Lemma calculateParticlePositions_spec this :
  Forall (fun s => 0 <= PathSegment.distance s) (Smoke.segments this) ->
  exists this' a,
    Smoke.calculateParticlePositions this = Normal this' /\
    Smoke.super this' = Smoke.super this /\
    zones (Smoke.particles this) (Smoke.particles this') a
      (length (Smoke.particles this)) (finalVertex (Smoke.super this)) /\
    (forall j q, (j < a)%nat -> Smoke.particles this !! j = Some q ->
       SmokeParticle.distance q <= totalLength (Smoke.segments this)).
Proof.
  intros Hpos. unfold Smoke.calculateParticlePositions.
  destruct (Smoke.particles this) as [|first others] eqn:Hps.
  - exists this, 0%nat. rewrite Hps. split_and!; try reflexivity.
    + apply zones_start.
    + intros j q Hj. lia.
  - destruct (walkSegments_spec (first :: others) (Smoke.segments this)
                (first :: others) 0 (SmokeParticle.distance first)
                (p5.Vector.copy (Smoke.originPosition this))
                (Smoke.originHeading this) first 0)
      as (ps' & a & Hwalk & Hz & _ & Hwithin);
      try assumption; try reflexivity; try lra.
    + apply zones_start.
    + rewrite Hwalk. exists (Smoke.set_particles ps' this), a.
      split_and!; try reflexivity.
      * rewrite finalVertex_traverse. exact Hz.
      * intros j q Hj Hq. specialize (Hwithin j q ltac:(lia) Hq). lra.
Qed.

Lemma pin_position position p :
  SmokeParticle.position (pin position p) = position.
Proof.
  unfold pin. cbn. now destruct (SmokeParticle.alphaDirection p =? -1)%Z.
Qed.

Lemma pin_alphaDirection position p :
  SmokeParticle.alphaDirection (pin position p) = (-1)%Z.
Proof.
  unfold pin. cbn.
  destruct (SmokeParticle.alphaDirection p =? -1)%Z eqn:E; cbn; [|reflexivity].
  now apply Z.eqb_eq in E.
Qed.

Lemma pin_fadeOut position p :
  SmokeParticle.alphaDirection p <> (-1)%Z ->
  pin position p =
  SmokeParticle.fadeOut (SmokeParticle.set_position position p).
Proof.
  intros Hne. unfold pin. cbn.
  destruct (SmokeParticle.alphaDirection p =? -1)%Z eqn:E; [|reflexivity].
  now apply Z.eqb_eq in E.
Qed.

(** C2. After [calculateParticlePositions] (on a path whose segments have
    distances >= 0), every particle whose distance exceeds the total path
    length has its position set to the path's final vertex, and [fadeOut]
    has been invoked on it if its [alphaDirection] was not -1: afterwards it
    is fading out, hence not fading in.  This holds for the particle at any
    index of any particle list, in particular for non-empty lists in
    ascending order of distance. *)
Theorem calculateParticlePositions_overrun (this : Smoke.t) (k : nat)
    (p : SmokeParticle.t) :
  Forall (fun s => 0 <= PathSegment.distance s) (Smoke.segments this) ->
  Smoke.particles this !! k = Some p ->
  totalLength (Smoke.segments this) < SmokeParticle.distance p ->
  exists this' p',
    Smoke.calculateParticlePositions this = Normal this' /\
    Smoke.particles this' !! k = Some p' /\
    p' = pin (finalVertex (Smoke.super this)) p /\
    SmokeParticle.position p' = finalVertex (Smoke.super this) /\
    (SmokeParticle.alphaDirection p <> (-1)%Z ->
     p' = SmokeParticle.fadeOut
            (SmokeParticle.set_position (finalVertex (Smoke.super this)) p)) /\
    SmokeParticle.alphaDirection p' = (-1)%Z /\
    SmokeParticle.alphaDirection p' <> 1%Z.
Proof.
  intros Hpos Hp Hover.
  destruct (calculateParticlePositions_spec this Hpos)
    as (this' & a & Hcalc & _ & (_ & _ & Hpinned & _) & Hwithin).
  assert (Hak : (a <= k)%nat).
  { destruct (le_lt_dec a k) as [H|H]; [assumption|].
    specialize (Hwithin k p H Hp). lra. }
  apply lookup_lt_Some in Hp as Hk.
  exists this', (pin (finalVertex (Smoke.super this)) p).
  split_and!; try reflexivity; try assumption.
  - apply Hpinned; [lia|assumption].
  - apply pin_position.
  - apply pin_fadeOut.
  - apply pin_alphaDirection.
  - rewrite pin_alphaDirection. discriminate.
Qed.

Lemma calculateParticlePositions_overrun_witness :
  exists this' p',
    Smoke.calculateParticlePositions sampleSmoke = Normal this' /\
    Smoke.particles this' !! 1%nat = Some p' /\
    p' = pin (finalVertex (Smoke.super sampleSmoke))
           (SmokeParticle.mk 8 130 9 1000 1100 (createVector 0 0) 4 0.2 6 30
              1%Z true) /\
    SmokeParticle.position p' = finalVertex (Smoke.super sampleSmoke) /\
    (SmokeParticle.alphaDirection
       (SmokeParticle.mk 8 130 9 1000 1100 (createVector 0 0) 4 0.2 6 30
          1%Z true) <> (-1)%Z ->
     p' = SmokeParticle.fadeOut
            (SmokeParticle.set_position
               (finalVertex (Smoke.super sampleSmoke))
               (SmokeParticle.mk 8 130 9 1000 1100 (createVector 0 0) 4 0.2
                  6 30 1%Z true))) /\
    SmokeParticle.alphaDirection p' = (-1)%Z /\
    SmokeParticle.alphaDirection p' <> 1%Z.
Proof.
  apply (calculateParticlePositions_overrun sampleSmoke 1).
  - repeat constructor; simpl; lra.
  - reflexivity.
  - unfold totalLength. simpl. lra.
Defined.

(** ** Smoke.update *)

(** The position calculation without any assumption on the segments: it
    does not throw, and the particles end up placed or pinned. *)
Lemma walkSegments_shape orig : forall segments ps idx remainingDistance
    position heading q,
  zones orig ps idx idx position ->
  orig !! idx = Some q ->
  exists ps' a,
    Smoke.walkSegments segments ps idx remainingDistance position heading =
      Normal ps' /\
    zones orig ps' a (length orig)
      (Smoke.offset (traverse segments position heading)).
Proof.
  induction segments as [|segment rest IH];
    intros ps idx remaining position heading q Hz Hq.
  - cbn [Smoke.walkSegments traverse Smoke.offset].
    pose proof (zones_length _ _ _ _ _ Hz) as Hlen.
    apply lookup_lt_Some in Hq as Hidx.
    destruct (pinParticles_spec orig position idx (length ps - idx) idx ps)
      as (ps' & Hpin & Hz'); try lia; try assumption.
    now exists ps', idx.
  - cbn [Smoke.walkSegments traverse].
    set (heading' := heading + PathSegment.angle segment).
    set (vector := p5.Vector.fromAngle heading'
                     (PathSegment.distance segment)).
    pose proof (zones_length _ _ _ _ _ Hz) as Hlen.
    apply lookup_lt_Some in Hq as Hidx.
    destruct (placeParticles_spec orig segment vector position position
                (SmokeParticle.distance q - remaining)
                (length ps - S idx) ps idx remaining q)
      as (exit & Hexit & Hpost); try assumption; try lia; try lra.
    rewrite Hexit.
    destruct exit as [ps'|ps' idx' remaining'].
    + destruct Hpost as (Hzf & _).
      exists ps', (length orig). split; [reflexivity|].
      now apply zones_reposition with position.
    + destruct Hpost as (Hzf & _ & (q' & Hq' & _) & _).
      apply IH with q'; [|assumption].
      now apply zones_reposition with position.
Qed.

Lemma calculateParticlePositions_shape this :
  exists this' a,
    Smoke.calculateParticlePositions this = Normal this' /\
    Smoke.super this' = Smoke.super this /\
    zones (Smoke.particles this) (Smoke.particles this') a
      (length (Smoke.particles this)) (finalVertex (Smoke.super this)).
Proof.
  unfold Smoke.calculateParticlePositions.
  destruct (Smoke.particles this) as [|first others] eqn:Hps.
  - exists this, 0%nat. rewrite Hps. split_and!; try reflexivity.
    apply zones_start.
  - destruct (walkSegments_shape (first :: others) (Smoke.segments this)
                (first :: others) 0 (SmokeParticle.distance first)
                (p5.Vector.copy (Smoke.originPosition this))
                (Smoke.originHeading this) first)
      as (ps' & a & Hwalk & Hz); try reflexivity.
    + apply zones_start.
    + rewrite Hwalk. exists (Smoke.set_particles ps' this), a.
      split_and!; try reflexivity.
      rewrite finalVertex_traverse. exact Hz.
Qed.

(** Every particle of the result stems from the particle at the same index
    by position assignments and [fadeOut] only. *)
Lemma zones_trace orig ps a position j q' :
  zones orig ps a (length orig) position ->
  ps !! j = Some q' ->
  exists q ms,
    orig !! j = Some q /\ Forall positioning ms /\ q' = mutations ms q.
Proof.
  intros (Hlen & Hplaced & Hpinned & _) Hq'.
  apply lookup_lt_Some in Hq' as Hj. rewrite Hlen in Hj.
  destruct (lookup_lt_is_Some_2 orig j Hj) as [q Hq].
  exists q. destruct (le_lt_dec a j) as [Hge|Hlt].
  - rewrite (Hpinned j q ltac:(lia) Hq) in Hq'. injection Hq' as <-.
    unfold pin. cbn [SmokeParticle.alphaDirection SmokeParticle.set_position].
    destruct (SmokeParticle.alphaDirection q =? -1)%Z.
    + exists [SetPosition position]. split_and!; try assumption.
      * repeat constructor.
      * reflexivity.
    + exists [SetPosition position; FadeOut]. split_and!; try assumption.
      * repeat constructor.
      * reflexivity.
  - destruct (Hplaced j q Hlt Hq) as [v Hv]. rewrite Hv in Hq'.
    injection Hq' as <-.
    exists [SetPosition v]. split_and!; try assumption.
    + repeat constructor.
    + reflexivity.
Qed.

Lemma sort_insert_In a l x :
  In x (Smoke.sort_insert a l) <-> x = a \/ In x l.
Proof.
  induction l as [|b l IH]; simpl.
  - intuition.
  - destruct (Rle_dec _ _); simpl; [intuition|].
    rewrite IH. intuition.
Qed.

Lemma sort_In l x : In x (Smoke.sort l) <-> In x l.
Proof.
  induction l as [|a l IH]; simpl; [reflexivity|].
  rewrite sort_insert_In, IH. intuition.
Qed.

Lemma sort_insert_length a l :
  length (Smoke.sort_insert a l) = S (length l).
Proof.
  induction l as [|b l IH]; simpl; [reflexivity|].
  destruct (Rle_dec _ _); simpl; [reflexivity|]. now rewrite IH.
Qed.

Lemma sort_length l : length (Smoke.sort l) = length l.
Proof.
  induction l as [|a l IH]; simpl; [reflexivity|].
  now rewrite sort_insert_length, IH.
Qed.

(** [Smoke.update] never throws.  The particles it keeps are the updated
    particles that are alive, further touched by position assignments and
    [fadeOut] only; the path is unchanged. *)
Lemma update_trace this h :
  let time := clockSource h (ticks h) in
  exists this' h',
    Smoke.update this h = Normal (this', h') /\
    Smoke.super this' = Smoke.super this /\
    Forall (fun q' =>
              exists p ms,
                In p (Smoke.particles this) /\
                SmokeParticle.isAlive (SmokeParticle.update p time) = true /\
                Forall positioning ms /\
                q' = mutations (Update time :: ms) p)
           (Smoke.particles this') /\
    length (Smoke.particles this') =
      length (List.filter SmokeParticle.isAlive
                (map (fun p => SmokeParticle.update p time)
                   (Smoke.particles this))).
Proof.
  intros time. unfold Smoke.update, bind, millis, lift.
  set (kept := Smoke.sort _).
  destruct (calculateParticlePositions_shape (Smoke.set_particles kept this))
    as (this' & a & Hcalc & Hsuper & Hz).
  fold time. fold kept. rewrite Hcalc. eexists _, _. split; [reflexivity|].
  split; [exact Hsuper|].
  split.
  2:{ rewrite (zones_length _ _ _ _ _ Hz). unfold kept.
      cbn [Smoke.particles Smoke.set_particles]. apply sort_length. }
  apply List.Forall_forall. intros q' Hin.
  apply list_elem_of_In, list_elem_of_lookup in Hin as [j Hj].
  destruct (zones_trace _ _ _ _ _ _ Hz Hj) as (q & ms & Hq & Hms & ->).
  cbn [Smoke.particles Smoke.set_particles] in Hq.
  assert (Hkept : In q kept).
  { apply list_elem_of_In, list_elem_of_lookup. eauto. }
  unfold kept in Hkept. rewrite sort_In, filter_In, in_map_iff in Hkept.
  destruct Hkept as [(p & <- & Hp) Halive].
  exists p, ms. split_and!; try assumption. reflexivity.
Qed.

Lemma positioning_isAlive ms : forall p,
  Forall positioning ms ->
  SmokeParticle.isAlive (mutations ms p) = SmokeParticle.isAlive p.
Proof.
  induction ms as [|m ms IH]; intros p Hms; [reflexivity|].
  pose proof (Forall_inv Hms) as Hm.
  pose proof (Forall_inv_tail Hms) as Hms'.
  cbn [mutations fold_left]. fold (mutations ms (mutate p m)).
  rewrite IH by assumption. destruct m; simpl in Hm; try contradiction;
    reflexivity.
Qed.

Lemma positioning_distance ms : forall p,
  Forall positioning ms ->
  SmokeParticle.distance (mutations ms p) = SmokeParticle.distance p.
Proof.
  induction ms as [|m ms IH]; intros p Hms; [reflexivity|].
  pose proof (Forall_inv Hms) as Hm.
  pose proof (Forall_inv_tail Hms) as Hms'.
  cbn [mutations fold_left]. fold (mutations ms (mutate p m)).
  rewrite IH by assumption. destruct m; simpl in Hm; try contradiction;
    reflexivity.
Qed.

(** Every particle a Smoke keeps after [update] is alive. *)
Lemma update_keeps_alive this h this' h' :
  Smoke.update this h = Normal (this', h') ->
  Forall (fun q' => SmokeParticle.isAlive q' = true) (Smoke.particles this').
Proof.
  intros Hupd.
  destruct (update_trace this h) as (this'' & h'' & Hupd' & _ & Htrace & _).
  rewrite Hupd in Hupd'. injection Hupd' as <- <-.
  eapply List.Forall_impl; [|exact Htrace].
  intros q' (p & ms & _ & Halive & Hms & ->).
  change (mutations (Update ?t :: ms) p)
    with (mutations ms (SmokeParticle.update p t)).
  now rewrite positioning_isAlive.
Qed.

(** The data-model invariant on segment distances holds for every Smoke the
    constructor builds, and [update] keeps the path. *)
Lemma constructor_segments_nonneg figure branchIndex minLength maxLength h
    s h' :
  Smoke.constructor figure branchIndex minLength maxLength h =
    Normal (s, h') ->
  Forall (fun segment => 0 <= PathSegment.distance segment)
    (Smoke.segments s).
Proof.
  intros Hc.
  destruct (constructor_spec figure branchIndex minLength maxLength h)
    as (location & s_ & h_ & p0 & p1 & Hc_ & _ & _ & _ & Hsegs & _).
  rewrite Hc in Hc_. injection Hc_ as <- <-. rewrite Hsegs.
  eapply List.Forall_impl; [|apply smokeSegments_distance].
  intros segment Hd. simpl in Hd. lra.
Qed.

Lemma update_preserves_path this h this' h' :
  Smoke.update this h = Normal (this', h') ->
  Smoke.segments this' = Smoke.segments this.
Proof.
  intros Hupd.
  destruct (update_trace this h) as (this'' & h'' & Hupd' & Hsuper & _).
  rewrite Hupd in Hupd'. injection Hupd' as <- <-.
  unfold Smoke.segments. now rewrite Hsuper.
Qed.

(** C6. Terminal state: when [update] takes a fading-out particle's alpha to
    0 (alphaDirection goes from -1 to 0 with alpha 0), [isAlive] is false;
    whatever the source does to the particle afterwards, its own [update],
    [fadeIn] and [fadeOut] and the position assignment of its Smoke, in any
    number and order, [isAlive] stays false; and [Smoke.update] completes,
    keeps only particles that are alive, and none that stems from the dead
    one. *)
Theorem dead_particle_stays_dead (p : SmokeParticle.t) (time : R) :
  SmokeParticle.alphaDirection p = (-1)%Z ->
  time <> SmokeParticle.lastTime p ->
  SmokeParticle.alpha p - 300 * ((time - SmokeParticle.lastTime p) / 1000)
    <= 0 ->
  let dead := SmokeParticle.update p time in
  SmokeParticle.alpha dead = 0 /\
  SmokeParticle.alphaDirection dead = 0%Z /\
  SmokeParticle.isAlive dead = false /\
  (forall ms, SmokeParticle.isAlive (mutations ms dead) = false) /\
  (forall this h,
     exists this' h',
       Smoke.update this h = Normal (this', h') /\
       Forall (fun q' => SmokeParticle.isAlive q' = true)
         (Smoke.particles this') /\
       forall ms, ~ In (mutations ms dead) (Smoke.particles this')).
Proof.
  intros Hdir Htime Halpha dead.
  assert (Hdead : SmokeParticle.alpha dead = 0 /\
                  SmokeParticle.alphaDirection dead = 0%Z /\
                  SmokeParticle.isAlive dead = false).
  { unfold dead, SmokeParticle.update.
    destruct (Req_dec_T _ _) as [Hz|Hnz]; [exfalso; apply Htime; lra|].
    cbn [SmokeParticle.alphaDirection SmokeParticle.alpha].
    rewrite Hdir. cbn [Z.eqb Pos.eqb].
    cbn [SmokeParticle.alpha SmokeParticle.set_alpha].
    destruct (Rle_dec _ _) as [Hle|Hgt]; [|contradiction].
    now cbn. }
  destruct Hdead as (Ha & Hd & Hl).
  split_and!; try assumption.
  - intros ms. now apply mutations_dead.
  - intros this h.
    destruct (update_trace this h) as (this' & h' & Hupd & _ & _).
    pose proof (update_keeps_alive this h this' h' Hupd) as Hkept.
    exists this', h'. split_and!; try assumption.
    intros ms Hin. rewrite List.Forall_forall in Hkept.
    specialize (Hkept _ Hin). rewrite mutations_dead in Hkept by assumption.
    discriminate.
Qed.

Lemma dead_particle_stays_dead_witness :
  let dead := SmokeParticle.update fadingParticle 4000 in
  SmokeParticle.alpha dead = 0 /\
  SmokeParticle.alphaDirection dead = 0%Z /\
  SmokeParticle.isAlive dead = false /\
  (forall ms, SmokeParticle.isAlive (mutations ms dead) = false) /\
  (forall this h,
     exists this' h',
       Smoke.update this h = Normal (this', h') /\
       Forall (fun q' => SmokeParticle.isAlive q' = true)
         (Smoke.particles this') /\
       forall ms, ~ In (mutations ms dead) (Smoke.particles this')).
Proof.
  apply (dead_particle_stays_dead fadingParticle 4000);
    [reflexivity | simpl; lra | simpl; lra].
Defined.

(** ** Path.copy, on the object store *)

Section CopiedStore.

Import Store.

Variable h : store.
Variable originPosition : ref.
Variable originHeading : R.
Variable values : list (R * R).

Let h' : store := copiedStore h originPosition originHeading values.

Lemma copiedStore_old r : (r < length h)%nat -> h' !! r = h !! r.
Proof. intros Hr. unfold h', copiedStore. now rewrite lookup_app_l. Qed.

Lemma copiedStore_length : length h' = (length h + 3 + length values)%nat.
Proof.
  unfold h', copiedStore. rewrite length_app. cbn [length app].
  rewrite length_map. lia.
Qed.

Lemma copiedStore_array :
  h' !! (length h + 1)%nat =
  Some (ArrayObj (seq (length h + 3)%nat (length values))).
Proof.
  unfold h', copiedStore. rewrite lookup_app_r by lia.
  now replace (length h + 1 - length h)%nat with 1%nat by lia.
Qed.

Lemma copiedStore_path :
  h' !! (length h + 2)%nat =
  Some (PathObj originPosition originHeading (length h + 1)%nat).
Proof.
  unfold h', copiedStore. rewrite lookup_app_r by lia.
  now replace (length h + 2 - length h)%nat with 2%nat by lia.
Qed.

Lemma copiedStore_segment i v :
  values !! i = Some v ->
  h' !! (length h + 3 + i)%nat = Some (segmentObj v).
Proof.
  intros Hv. unfold h', copiedStore. rewrite lookup_app_r by lia.
  replace (length h + 3 + i - length h)%nat with (S (S (S i))) by lia.
  cbn. change (map segmentObj values !! i = Some (segmentObj v)).
  now rewrite list_lookup_fmap, Hv.
Qed.

End CopiedStore.

Section CopyStore.

Import Store.

Variable h : store.
Variables this originPosition segments : ref.
Variable originHeading : R.
Variable elements : list ref.
Variable values : list (R * R).

Hypothesis Hthis :
  h !! this = Some (PathObj originPosition originHeading segments).
Hypothesis Hsegments : h !! segments = Some (ArrayObj elements).
Hypothesis Hvalues :
  Forall2 (fun e v => segmentValue h e = Some v) elements values.

(** The store after the copy has been constructed and its origin fields
    assigned, and [k] segments have been copied. *)
Let stage (k : nat) : store := copiedStore h originPosition originHeading
                                 (take k values).

Let path : ref := (length h + 2)%nat.

Let callback : ref -> Heap unit :=
  fun segment =>
    (let* segment' := PathSegment.copy segment in
     Path.addSegment path segment')%heap.

Lemma stage_old k r : (r < length h)%nat -> stage k !! r = h !! r.
Proof. intros Hr. unfold stage, copiedStore. now rewrite lookup_app_l. Qed.

Lemma stage_length k :
  (k <= length values)%nat -> length (stage k) = (length h + 3 + k)%nat.
Proof.
  intros Hk. unfold stage, copiedStore.
  rewrite length_app. cbn [length app]. rewrite length_map, length_take_le by assumption.
  lia.
Qed.

Lemma stage_array k :
  (k <= length values)%nat ->
  stage k !! (length h + 1)%nat = Some (ArrayObj (seq (length h + 3)%nat k)).
Proof.
  intros Hk. unfold stage, copiedStore.
  rewrite lookup_app_r by lia.
  replace (length h + 1 - length h)%nat with 1%nat by lia.
  cbn. now rewrite length_take_le.
Qed.

Lemma stage_path k :
  stage k !! path =
  Some (PathObj originPosition originHeading (length h + 1)%nat).
Proof.
  unfold stage, copiedStore, path.
  rewrite lookup_app_r by lia.
  now replace (length h + 2 - length h)%nat with 2%nat by lia.
Qed.

(** One call of the callback of [forEach]: the segment is copied to a fresh
    object, which is pushed on the array of the copy. *)
Lemma callback_step k e v :
  elements !! k = Some e ->
  values !! k = Some v ->
  callback e (stage k) = Normal (tt, stage (S k)).
Proof.
  intros He Hv.
  assert (Hev : segmentValue h e = Some v)
    by exact (Forall2_lookup_lr _ _ _ _ _ _ Hvalues He Hv).
  unfold segmentValue in Hev.
  destruct (h !! e) as [[| a d | |]|] eqn:Hobj; try discriminate.
  injection Hev as <-.
  apply lookup_lt_Some in Hobj as He_old.
  apply lookup_lt_Some in Hv as Hk.
  unfold callback, PathSegment.copy, PathSegment.constructor,
    Path.addSegment, Path.get_segments, push.
  unfold bind at 1. unfold bind at 1. unfold read at 1.
  rewrite stage_old, Hobj by assumption.
  unfold alloc at 1. rewrite stage_length by lia.
  unfold bind at 1. unfold bind at 1. unfold read at 1.
  rewrite lookup_app_l by (rewrite stage_length; unfold path; lia).
  rewrite stage_path. unfold ret at 1.
  unfold bind at 1. unfold read at 1.
  rewrite lookup_app_l by (rewrite stage_length; lia).
  rewrite stage_array by lia.
  unfold write. do 2 f_equal.
  unfold stage, copiedStore.
  rewrite (take_S_r _ _ _ Hv), map_app, !length_app, length_take_le by lia.
  cbn [map length].
  rewrite <- app_assoc.
  rewrite insert_app_r_alt by lia.
  replace (length h + 1 - length h)%nat with 1%nat by lia.
  cbn [app]. cbn [insert list_insert].
  replace (k + 1)%nat with (S k) by lia. rewrite seq_S. reflexivity.
Qed.

Lemma forEach_loop_copy : forall n k,
  (k + n = length elements)%nat ->
  forEach_loop segments n k callback (stage k) =
  Normal (tt, stage (length elements)).
Proof.
  pose proof (Forall2_length _ _ _ Hvalues) as Hlen.
  apply lookup_lt_Some in Hsegments as Hsegs_old.
  induction n as [|n IH]; intros k Hk.
  - cbn. unfold ret. now replace (length elements) with k by lia.
  - cbn [forEach_loop]. unfold bind at 1. unfold read at 1.
    rewrite stage_old, Hsegments by assumption.
    destruct (lookup_lt_is_Some_2 elements k ltac:(lia)) as [e He].
    destruct (lookup_lt_is_Some_2 values k ltac:(lia)) as [v Hv].
    rewrite He. unfold bind at 1.
    rewrite (callback_step k e v He Hv).
    apply IH. lia.
Qed.

(** [this.copy()] returns a fresh path object, in the store [copiedStore]
    describes. *)
Lemma copy_spec :
  Path.copy this h =
  Normal (path, copiedStore h originPosition originHeading values).
Proof.
  pose proof (Forall2_length _ _ _ Hvalues) as Hlen.
  apply lookup_lt_Some in Hthis as Hthis_old.
  apply lookup_lt_Some in Hsegments as Hsegs_old.
  assert (Hstage0 :
    stage 0 =
    <[path := PathObj originPosition originHeading (length h + 1)%nat]>
      (<[path := PathObj originPosition 0 (length h + 1)%nat]>
         (((h ++ [VectorObj (createVector 0 0)]) ++ [ArrayObj []])
          ++ [PathObj (length h) 0 (length h + 1)%nat]))).
  { unfold stage, copiedStore, path. rewrite <- !app_assoc. cbn [app].
    rewrite !insert_app_r_alt by lia.
    replace (length h + 2 - length h)%nat with 2%nat by lia.
    reflexivity. }
  unfold Path.copy, Path.constructor.
  unfold bind at 1. unfold bind at 1. unfold alloc at 1.
  unfold bind at 1. unfold alloc at 1. unfold alloc at 1.
  rewrite !length_app. cbn [length].
  replace (length h + 1 + 1)%nat with path by (unfold path; lia).
  set (h3 := (_ ++ _) ++ [PathObj _ _ _]).
  assert (Hold3 : forall r, (r < length h)%nat -> h3 !! r = h !! r).
  { intros r Hr. unfold h3. rewrite <- !app_assoc. now rewrite lookup_app_l. }
  assert (Hlen3 : length h3 = (length h + 3)%nat).
  { unfold h3. rewrite !length_app. cbn. lia. }
  assert (Hpath3 : h3 !! path = Some (PathObj (length h) 0 (length h + 1)%nat)).
  { unfold h3, path. rewrite lookup_app_r by (rewrite !length_app; cbn; lia).
    rewrite !length_app. cbn [length].
    now replace (length h + 2 - (length h + 1 + 1))%nat with 0%nat by lia. }
  unfold bind at 1. unfold Path.get_originPosition at 1.
  unfold bind at 1. unfold read at 1. rewrite Hold3, Hthis by assumption.
  unfold ret at 1.
  unfold bind at 1. unfold Path.set_originPosition at 1.
  unfold bind at 1. unfold read at 1. rewrite Hpath3. unfold write at 1.
  set (h4 := <[path := _]> h3).
  assert (Hold4 : forall r, (r < length h)%nat -> h4 !! r = h !! r).
  { intros r Hr. unfold h4. rewrite list_lookup_insert_ne by (unfold path; lia).
    now apply Hold3. }
  assert (Hpath4 : h4 !! path =
                   Some (PathObj originPosition 0 (length h + 1)%nat)).
  { unfold h4. apply list_lookup_insert_eq. rewrite Hlen3. unfold path. lia. }
  unfold bind at 1. unfold Path.get_originHeading at 1.
  unfold bind at 1. unfold read at 1. rewrite Hold4, Hthis by assumption.
  unfold ret at 1.
  unfold bind at 1. unfold Path.set_originHeading at 1.
  unfold bind at 1. unfold read at 1. rewrite Hpath4. unfold write at 1.
  fold h3 in Hstage0. fold h4 in Hstage0. rewrite <- Hstage0.
  unfold bind at 1. unfold Path.get_segments at 1.
  unfold bind at 1. unfold read at 1. rewrite stage_old, Hthis by assumption.
  unfold ret at 1.
  unfold bind at 1. unfold forEach. unfold bind at 1. unfold read at 1.
  rewrite stage_old, Hsegments by assumption.
  fold callback. rewrite (forEach_loop_copy (length elements) 0 eq_refl).
  unfold ret, stage. rewrite Hlen. now rewrite take_ge by lia.
Qed.

End CopyStore.

Section StoreFacts.

Import Store.

Lemma wellFormedPath_inv h path :
  wellFormedPath h path ->
  exists originPosition originHeading segments elements values,
    h !! path = Some (PathObj originPosition originHeading segments) /\
    h !! segments = Some (ArrayObj elements) /\
    Forall2 (fun e v => segmentValue h e = Some v) elements values.
Proof.
  intros [values Hvalues]. unfold segmentValues, segmentRefs in Hvalues.
  destruct (h !! path) as [[| | |originPosition originHeading segments]|]
    eqn:Hpath; try discriminate.
  destruct (h !! segments) as [[| |elements|]|] eqn:Hsegments;
    try discriminate.
  apply mapM_Some in Hvalues.
  now exists originPosition, originHeading, segments, elements, values.
Qed.

Lemma segmentRefs_eq h path originPosition originHeading segments elements :
  h !! path = Some (PathObj originPosition originHeading segments) ->
  h !! segments = Some (ArrayObj elements) ->
  segmentRefs h path = Some elements.
Proof. intros Hp Hs. unfold segmentRefs. now rewrite Hp, Hs. Qed.

(** [path.addSegment(s)] replaces the array object of [path] and nothing
    else. *)
Lemma addSegment_spec h path s originPosition originHeading segments
    elements :
  h !! path = Some (PathObj originPosition originHeading segments) ->
  h !! segments = Some (ArrayObj elements) ->
  Path.addSegment path s h =
  Normal (tt, <[segments := ArrayObj (elements ++ [s])]> h).
Proof.
  intros Hp Hs.
  unfold Path.addSegment, Path.get_segments, push, bind, read, ret, write.
  now rewrite Hp, Hs.
Qed.

(** The segment sequence of a path after an array object is replaced: the
    new contents for the owner of the array, no change for a path with
    another array. *)
Lemma segmentRefs_insert h path originPosition originHeading segments
    array elements elements' :
  h !! path = Some (PathObj originPosition originHeading segments) ->
  h !! array = Some (ArrayObj elements) ->
  segmentRefs (<[array := ArrayObj elements']> h) path =
  if decide (segments = array) then Some elements' else segmentRefs h path.
Proof.
  intros Hp Ha. unfold segmentRefs.
  assert (Hne : array <> path) by congruence.
  apply lookup_lt_Some in Ha as Hlt.
  rewrite list_lookup_insert_ne, Hp by assumption.
  destruct (decide (segments = array)) as [->|Hother].
  - now rewrite list_lookup_insert_eq.
  - now rewrite list_lookup_insert_ne by congruence.
Qed.

End StoreFacts.

(** C7. [Path.copy()] returns a new Path whose [originPosition] is the very
    object of the original (one reference, shared) and whose segment list is
    its own: a different array, of the same length, whose elements are
    fresh segment objects with the same values.  [addSegment] on the copy
    leaves the original's segment sequence unchanged, and [addSegment] on
    the original leaves the copy's unchanged. *)
Theorem copy_shares_origin_owns_segments (h : Store.store)
    (this s : Store.ref) :
  Store.wellFormedPath h this ->
  exists path h',
    Store.Path.copy this h = Normal (path, h') /\
    path <> this /\
    (exists o,
       Store.originRef h this = Some o /\
       Store.originRef h' this = Some o /\
       Store.originRef h' path = Some o) /\
    (exists a a',
       Store.arrayRef h' this = Some a /\
       Store.arrayRef h' path = Some a' /\
       a <> a') /\
    (exists refs refs',
       Store.segmentRefs h this = Some refs /\
       Store.segmentRefs h' this = Some refs /\
       Store.segmentRefs h' path = Some refs' /\
       length refs' = length refs /\
       forall r, In r refs' -> ~ In r refs) /\
    (exists values,
       Store.segmentValues h this = Some values /\
       Store.segmentValues h' this = Some values /\
       Store.segmentValues h' path = Some values) /\
    (exists h2,
       Store.Path.addSegment path s h' = Normal (tt, h2) /\
       Store.segmentRefs h2 this = Store.segmentRefs h' this /\
       Store.segmentRefs h2 path =
         (fun refs => refs ++ [s]) <$> Store.segmentRefs h' path) /\
    (exists h3,
       Store.Path.addSegment this s h' = Normal (tt, h3) /\
       Store.segmentRefs h3 path = Store.segmentRefs h' path /\
       Store.segmentRefs h3 this =
         (fun refs => refs ++ [s]) <$> Store.segmentRefs h' this).
Proof.
  intros Hwf.
  destruct (wellFormedPath_inv h this Hwf)
    as (o & oh & segs & els & vals & Hthis & Hsegs & Hvals).
  pose proof (Forall2_length _ _ _ Hvals) as Hlen.
  apply lookup_lt_Some in Hthis as Hthis_old.
  apply lookup_lt_Some in Hsegs as Hsegs_old.
  set (n := length h) in *.
  set (h' := Store.copiedStore h o oh vals).
  assert (Hthis' : h' !! this =
                   Some (Store.PathObj o oh segs)).
  { unfold h'. now rewrite copiedStore_old. }
  assert (Hsegs' : h' !! segs = Some (Store.ArrayObj els)).
  { unfold h'. now rewrite copiedStore_old. }
  pose proof (copiedStore_path h o oh vals) as Hpath'.
  pose proof (copiedStore_array h o oh vals) as Harray'.
  fold n h' in Hpath', Harray'.
  assert (Hrefs : Store.segmentRefs h this = Some els)
    by now apply segmentRefs_eq with o oh segs.
  assert (Hrefs' : Store.segmentRefs h' this = Some els)
    by now apply segmentRefs_eq with o oh segs.
  assert (Hrefsc : Store.segmentRefs h' (n + 2)%nat =
                   Some (seq (n + 3) (length vals)))
    by now apply segmentRefs_eq with o oh (n + 1)%nat.
  exists (n + 2)%nat, h'. split_and!.
  - now apply copy_spec with segs els.
  - lia.
  - exists o. unfold Store.originRef. now rewrite Hthis, Hthis', Hpath'.
  - exists segs, (n + 1)%nat. unfold Store.arrayRef.
    rewrite Hthis', Hpath'. split_and!; try reflexivity. lia.
  - exists els, (seq (n + 3) (length vals)). split_and!; try assumption.
    + rewrite length_seq. lia.
    + intros r Hr Hr'. apply in_seq in Hr.
      apply list_elem_of_In, list_elem_of_lookup in Hr' as [i Hi].
      destruct (Forall2_lookup_l _ _ _ _ _ Hvals Hi) as (v & _ & Hv).
      unfold Store.segmentValue in Hv.
      destruct (h !! r) eqn:Hobj; [|discriminate].
      apply lookup_lt_Some in Hobj. fold n in Hobj. lia.
  - exists vals. unfold Store.segmentValues. rewrite Hrefs, Hrefs', Hrefsc.
    split_and!; apply mapM_Some.
    + exact Hvals.
    + eapply Forall2_impl; [exact Hvals|].
      intros e v Hv. unfold Store.segmentValue in *.
      destruct (h !! e) eqn:Hobj; [|discriminate].
      apply lookup_lt_Some in Hobj as Hlt.
      unfold h'. now rewrite copiedStore_old, Hobj.
    + apply Forall2_same_length_lookup_2; [now rewrite length_seq|].
      intros i r v Hr Hv. apply lookup_seq in Hr as [-> Hi].
      unfold Store.segmentValue, h', n.
      rewrite (copiedStore_segment h o oh vals i v Hv).
      now destruct v.
  - eexists. split.
    { exact (addSegment_spec h' (n + 2)%nat s o oh (n + 1)%nat
               (seq (n + 3) (length vals)) Hpath' Harray'). }
    rewrite (segmentRefs_insert h' this o oh segs (n + 1)%nat
               (seq (n + 3) (length vals))) by assumption.
    rewrite (segmentRefs_insert h' (n + 2)%nat o oh (n + 1)%nat (n + 1)%nat
               (seq (n + 3) (length vals))) by assumption.
    destruct (decide (segs = (n + 1)%nat)); [lia|].
    destruct (decide ((n + 1)%nat = (n + 1)%nat)); [|congruence].
    now rewrite Hrefsc.
  - eexists. split.
    { exact (addSegment_spec h' this s o oh segs els Hthis' Hsegs'). }
    rewrite (segmentRefs_insert h' (n + 2)%nat o oh (n + 1)%nat segs els)
      by assumption.
    rewrite (segmentRefs_insert h' this o oh segs segs els) by assumption.
    destruct (decide ((n + 1)%nat = segs)); [lia|].
    destruct (decide (segs = segs)); [|congruence].
    now rewrite Hrefs'.
Qed.

Lemma copy_shares_origin_owns_segments_witness :
  exists path h',
    Store.Path.copy 2%nat sampleStore = Normal (path, h') /\
    path <> 2%nat /\
    (exists o,
       Store.originRef sampleStore 2%nat = Some o /\
       Store.originRef h' 2%nat = Some o /\
       Store.originRef h' path = Some o) /\
    (exists a a',
       Store.arrayRef h' 2%nat = Some a /\
       Store.arrayRef h' path = Some a' /\
       a <> a') /\
    (exists refs refs',
       Store.segmentRefs sampleStore 2%nat = Some refs /\
       Store.segmentRefs h' 2%nat = Some refs /\
       Store.segmentRefs h' path = Some refs' /\
       length refs' = length refs /\
       forall r, In r refs' -> ~ In r refs) /\
    (exists values,
       Store.segmentValues sampleStore 2%nat = Some values /\
       Store.segmentValues h' 2%nat = Some values /\
       Store.segmentValues h' path = Some values) /\
    (exists h2,
       Store.Path.addSegment path 3%nat h' = Normal (tt, h2) /\
       Store.segmentRefs h2 2%nat = Store.segmentRefs h' 2%nat /\
       Store.segmentRefs h2 path =
         (fun refs => refs ++ [3%nat]) <$> Store.segmentRefs h' path) /\
    (exists h3,
       Store.Path.addSegment 2%nat 3%nat h' = Normal (tt, h3) /\
       Store.segmentRefs h3 path = Store.segmentRefs h' path /\
       Store.segmentRefs h3 2%nat =
         (fun refs => refs ++ [3%nat]) <$> Store.segmentRefs h' 2%nat).
Proof.
  apply (copy_shares_origin_owns_segments sampleStore 2%nat 3%nat).
  unfold Store.wellFormedPath. simpl. eauto.
Defined.

(** ** The end-to-end scenario *)

(** The path and the particles of a Smoke built with
    [minLength = maxLength = 10]: ten segments of distance 2, arc length 20,
    and two fresh particles whose distances are their distance offsets,
    [random(0)] and [random(2)]. *)
Lemma scenario_construction figure branchIndex h :
  let d := match branchIndex with
           | None => S (draws h)
           | Some _ => draws h
           end in
  exists s h' p0 p1,
    Smoke.constructor figure branchIndex (Some 10) (Some 10) h =
      Normal (s, h') /\
    length (Smoke.segments s) = 10%nat /\
    Forall (fun segment => PathSegment.distance segment = 2)
      (Smoke.segments s) /\
    totalLength (Smoke.segments s) = 20 /\
    Smoke.particles s = [p0; p1] /\
    SmokeParticle.distance p0 = 0 /\
    SmokeParticle.distance p1 = randomSource h (d + 7) * 2 /\
    freshParticle p0 /\ freshParticle p1.
Proof.
  intros d.
  destruct (constructor_spec figure branchIndex (Some 10) (Some 10) h)
    as (location & s & h' & p0 & p1 & Hc & _ & _ & _ & Hsegs & Hps & Hd0
        & Hd1 & Hf0 & Hf1 & _).
  cbv [from_option Datatypes.id] in Hsegs. fold d in Hsegs, Hd0, Hd1.
  destruct (Rgt_dec 10 10) as [Hgt|_]; [lra|].
  replace (randomSource h d * (10 - 10) + 10) with (IZR 10) in Hsegs by lra.
  rewrite floor_IZR in Hsegs. change (Z.to_nat 10) with 10%nat in Hsegs.
  exists s, h', p0, p1. rewrite Hsegs.
  split_and!; try assumption.
  - apply smokeSegments_length.
  - apply smokeSegments_distance.
  - rewrite smokeSegments_totalLength. simpl. lra.
  - rewrite Hd0. simpl. lra.
  - rewrite Hd1. simpl. lra.
Qed.

(** At elapsed time 0, [update] sets the distance to [speed * 0]. *)
Lemma update_at_creation p :
  SmokeParticle.distance
    (SmokeParticle.update p (SmokeParticle.creationTime p)) = 0.
Proof. rewrite update_distance. unfold Rdiv. ring. Qed.

(** With no time elapsed since the previous call, [update] returns before
    it touches alpha or [isAlive]. *)
Lemma update_no_delta p :
  SmokeParticle.isAlive
    (SmokeParticle.update p (SmokeParticle.lastTime p)) =
  SmokeParticle.isAlive p.
Proof.
  unfold SmokeParticle.update.
  destruct (Req_dec_T _ _) as [_|Hnz]; [reflexivity|].
  exfalso. apply Hnz. unfold Rdiv. ring.
Qed.

(** C1, on the code. In the scenario (one-segment parent, [branchIndex = 0],
    [minLength = maxLength = 10]) the path has 10 segments of distance 2
    (arc length 20) and there are 2 particles; but with a generator that
    answers one half the second particle is constructed with distance
    offset [random(2) = 1], and [update] at its creation time, its own or
    its Smoke's, leaves its distance at 0, not at that offset. *)
Theorem scenario_distance_offset_lost :
  exists s h' p0 p1,
    Smoke.constructor oneSegmentFigure (Some 0) (Some 10) (Some 10)
      sampleHost = Normal (s, h') /\
    length (Smoke.segments s) = 10%nat /\
    Forall (fun segment => PathSegment.distance segment = 2)
      (Smoke.segments s) /\
    totalLength (Smoke.segments s) = 20 /\
    Smoke.particles s = [p0; p1] /\
    SmokeParticle.distance p1 = 1 /\
    SmokeParticle.distance
      (SmokeParticle.update p1 (SmokeParticle.creationTime p1)) = 0 /\
    SmokeParticle.distance
      (SmokeParticle.update p1 (SmokeParticle.creationTime p1)) <>
    SmokeParticle.distance p1 /\
    exists s' h'',
      Smoke.update s h' = Normal (s', h'') /\
      length (Smoke.particles s') = 2%nat /\
      Forall (fun q => SmokeParticle.distance q = 0) (Smoke.particles s').
Proof.
  destruct (constructor_spec oneSegmentFigure (Some 0) (Some 10) (Some 10)
              sampleHost)
    as (location & s & h' & p0 & p1 & Hc & _ & _ & _ & _ & Hps & _ & Hd1
        & Hf0 & Hf1 & Hc0 & Hc1 & _ & _ & Hclock & _).
  destruct (scenario_construction oneSegmentFigure (Some 0) sampleHost)
    as (s_ & h_ & p0_ & p1_ & Hc_ & Hlen & Hdist & Htotal & _).
  rewrite Hc in Hc_. injection Hc_ as <- <-.
  exists s, h', p0, p1.
  assert (H1 : SmokeParticle.distance p1 = 1) by (rewrite Hd1; simpl; lra).
  split_and!; try assumption.
  - apply update_at_creation.
  - rewrite update_at_creation, H1. lra.
  - destruct (update_trace s h') as (s' & h'' & Hupd & _ & Htrace & Hcount).
    assert (Htime : clockSource h' (ticks h') = 4000)
      by now rewrite Hclock.
    rewrite Htime in Htrace, Hcount.
    assert (Hcreated : forall p, In p (Smoke.particles s) ->
              SmokeParticle.creationTime p = 4000 /\ freshParticle p).
    { rewrite Hps. intros p [<-|[<-|[]]]; split; assumption. }
    exists s', h''. split_and!; try assumption.
    + assert (Hkept : forall p, In p (Smoke.particles s) ->
                SmokeParticle.isAlive (SmokeParticle.update p 4000) = true).
      { intros p Hin. destruct (Hcreated p Hin) as [E (El & _ & _ & Ea)].
        now rewrite <- E, <- El, update_no_delta. }
      rewrite Hcount. rewrite Hps in Hkept |- *. cbn [map List.filter].
      rewrite (Hkept p0), (Hkept p1) by (simpl; auto). reflexivity.
    + eapply List.Forall_impl; [|exact Htrace].
      intros q (p & ms & Hin & _ & Hms & ->).
      change (mutations (Update ?t :: ms) p)
        with (mutations ms (SmokeParticle.update p t)).
      rewrite positioning_distance by assumption.
      destruct (Hcreated p Hin) as [<- _]. apply update_at_creation.
Qed.

(** * Further properties of the code *)

(** ** Figure.draw and Smoke.walkToSegment *)

Lemma draw_loop_length segments : forall position heading,
  length (Figure.draw_loop segments position heading) = length segments.
Proof.
  induction segments as [|s segments IH]; intros position heading; simpl;
    auto.
Qed.

Lemma draw_loop_lookup segments : forall position heading k,
  (k < length segments)%nat ->
  Figure.draw_loop segments position heading !! k =
  Some (Smoke.offset (traverse (take (S k) segments) position heading)).
Proof.
  induction segments as [|s segments IH]; intros position heading k Hk;
    simpl in Hk; [lia|].
  destruct k as [|k].
  - cbn [Figure.draw_loop take traverse]. now destruct segments.
  - cbn [Figure.draw_loop]. change (take (S (S k)) (s :: segments))
      with (s :: take (S k) segments).
    cbn [traverse lookup list_lookup]. apply IH. lia.
Qed.

(** X1. [Figure.draw] emits one vertex more than the figure has segments,
    and its vertex number [k] is the position [walkToSegment] returns for
    the branch index [k]: a Smoke that branches at index [k] starts on the
    drawn polyline. *)
Theorem draw_vertex_walkToSegment (figure : Figure.t) (k : nat) :
  (k <= length (Path.segments figure))%nat ->
  length (Figure.draw figure) = S (length (Path.segments figure)) /\
  exists location,
    Smoke.walkToSegment figure (INR k) = Normal location /\
    Figure.draw figure !! k = Some (Smoke.offset location).
Proof.
  intros Hk. unfold Figure.draw. cbn [length].
  rewrite draw_loop_length. split; [reflexivity|].
  eexists. split; [apply walkToSegment_take|].
  unfold p5.Vector.copy. destruct k as [|k]; [reflexivity|].
  cbn [lookup list_lookup]. apply draw_loop_lookup. lia.
Qed.

Lemma draw_vertex_walkToSegment_witness :
  length (Figure.draw sampleFigure) = S (length (Path.segments sampleFigure)) /\
  exists location,
    Smoke.walkToSegment sampleFigure (INR 2) = Normal location /\
    Figure.draw sampleFigure !! 2%nat = Some (Smoke.offset location).
Proof.
  apply (draw_vertex_walkToSegment sampleFigure 2). simpl. lia.
Defined.

(** X2. A branch index that is not a whole number is rounded up: for
    [k - 1 < branchIndex <= k], [walkToSegment] returns what it returns
    for [k]. *)
Theorem walkToSegment_rounds_up (figure : Figure.t) (branchIndex : R)
    (k : nat) :
  INR k - 1 < branchIndex <= INR k ->
  Smoke.walkToSegment figure branchIndex =
  Smoke.walkToSegment figure (INR k).
Proof.
  intros [Hlow Hhigh]. rewrite walkToSegment_take.
  unfold Smoke.walkToSegment, p5.Vector.copy.
  set (n := length (Path.segments figure)).
  rewrite (walkToSegment_loop_spec figure branchIndex n 0 (Nat.min k n));
    try lia.
  - rewrite drop_0. f_equal. f_equal.
    destruct (Nat.le_ge_cases k n) as [H|H].
    + now rewrite Nat.min_l.
    + rewrite Nat.min_r by assumption.
      now rewrite !take_ge by (fold n; lia).
  - intros j Hj. assert (Hjk : (S j <= k)%nat) by lia.
    apply le_INR in Hjk. rewrite S_INR in Hjk. lra.
  - destruct (Nat.le_ge_cases k n) as [H|H].
    + right. rewrite Nat.min_l by assumption. simpl. lra.
    + left. now rewrite Nat.min_r.
Qed.

Lemma walkToSegment_rounds_up_witness :
  Smoke.walkToSegment sampleFigure 0.5 =
  Smoke.walkToSegment sampleFigure (INR 1).
Proof.
  apply (walkToSegment_rounds_up sampleFigure 0.5 1). simpl. lra.
Defined.

(** X3. With a branch index of zero or less the loop breaks at once:
    [walkToSegment] returns the figure's origin and origin heading. *)
Theorem walkToSegment_nonpositive (figure : Figure.t) (branchIndex : R) :
  branchIndex <= 0 ->
  Smoke.walkToSegment figure branchIndex =
  Normal (Smoke.mkLocation (Path.originPosition figure)
            (Path.originHeading figure)).
Proof.
  intros Hb. unfold Smoke.walkToSegment, p5.Vector.copy.
  destruct (length (Path.segments figure)) as [|n]; [reflexivity|].
  cbn [Smoke.walkToSegment_loop].
  destruct (Rge_dec (INR 0) branchIndex) as [_|Hn]; [reflexivity|].
  exfalso. apply Hn. simpl. lra.
Qed.

Lemma walkToSegment_nonpositive_witness :
  Smoke.walkToSegment sampleFigure (-3) =
  Normal (Smoke.mkLocation (Path.originPosition sampleFigure)
            (Path.originHeading sampleFigure)).
Proof.
  apply (walkToSegment_nonpositive sampleFigure (-3)). lra.
Defined.

(** ** SmokeParticle: the fade timeline *)

(** Reduces the projections of particle records, and nothing else: the
    tests on reals stay folded. *)
Ltac fields :=
  cbn [SmokeParticle.xoffOrigin SmokeParticle.speed SmokeParticle.distance
       SmokeParticle.creationTime SmokeParticle.lastTime
       SmokeParticle.position SmokeParticle.xoffAngleStart
       SmokeParticle.xoffAngle SmokeParticle.gap SmokeParticle.alpha
       SmokeParticle.alphaDirection SmokeParticle.isAlive
       Z.eqb Pos.eqb].

(** Case analysis on the tests of [update] that are left in the goal. *)
Ltac update_cases :=
  repeat (match goal with
          | |- context [Req_dec_T ?a ?b] => destruct (Req_dec_T a b)
          | |- context [Rge_dec ?a ?b] => destruct (Rge_dec a b)
          | |- context [Rle_dec ?a ?b] => destruct (Rle_dec a b)
          end; fields).

(** Closes a case: by a contradiction between the tests, or by equality of
    the fields. *)
Ltac update_close :=
  try reflexivity;
  try (exfalso; lra);
  try (exfalso;
       match goal with H : _ <> _ |- _ => solve [apply H; lra] end);
  try (unfold advanced; fields; f_equal; lra).

(** [update], case by case. *)
Lemma update_view (p : SmokeParticle.t) (time : R) :
  let delta := (time - SmokeParticle.lastTime p) / 1000 in
  let a := SmokeParticle.alpha p in
  let dir := SmokeParticle.alphaDirection p in
  let alive := SmokeParticle.isAlive p in
  SmokeParticle.update p time =
  if Req_dec_T delta 0 then advanced p time a dir alive
  else if (dir =? 1)%Z then
    if Rge_dec (a + 300 * delta) 255 then advanced p time 255 0 alive
    else advanced p time (a + 300 * delta) dir alive
  else if (dir =? -1)%Z then
    if Rle_dec (a - 300 * delta) 0 then advanced p time 0 0 false
    else advanced p time (a - 300 * delta) dir alive
  else advanced p time a dir alive.
Proof.
  intros delta a dir alive. subst delta a dir alive.
  unfold SmokeParticle.update, SmokeParticle.set_isAlive,
    SmokeParticle.set_alphaDirection, SmokeParticle.set_alpha, advanced.
  fields.
  destruct (Req_dec_T _ _); [reflexivity|].
  destruct (_ =? 1)%Z; [destruct (Rge_dec _ _); reflexivity|].
  destruct (_ =? -1)%Z; [destruct (Rle_dec _ _); reflexivity|].
  reflexivity.
Qed.

Lemma advanced_fields p time a dir alive :
  SmokeParticle.alpha (advanced p time a dir alive) = a /\
  SmokeParticle.alphaDirection (advanced p time a dir alive) = dir /\
  SmokeParticle.isAlive (advanced p time a dir alive) = alive /\
  SmokeParticle.lastTime (advanced p time a dir alive) = time.
Proof. now unfold advanced. Qed.

Lemma advanced_advanced p t1 a1 dir1 alive1 t2 a2 dir2 alive2 :
  advanced (advanced p t1 a1 dir1 alive1) t2 a2 dir2 alive2 =
  advanced p t2 a2 dir2 alive2.
Proof. reflexivity. Qed.

(** Reads the fields of [advanced] particles. *)
Ltac advanced_simpl :=
  repeat match goal with
         | |- context [SmokeParticle.alpha (advanced ?p ?t ?a ?d ?l)] =>
             rewrite (proj1 (advanced_fields p t a d l))
         | |- context [SmokeParticle.alphaDirection
                         (advanced ?p ?t ?a ?d ?l)] =>
             rewrite (proj1 (proj2 (advanced_fields p t a d l)))
         | |- context [SmokeParticle.isAlive (advanced ?p ?t ?a ?d ?l)] =>
             rewrite (proj1 (proj2 (proj2 (advanced_fields p t a d l))))
         | |- context [SmokeParticle.lastTime (advanced ?p ?t ?a ?d ?l)] =>
             rewrite (proj2 (proj2 (proj2 (advanced_fields p t a d l))))
         end.

(** [update] of a particle that has just been brought to [t1]. *)
Ltac update_advanced :=
  rewrite update_view; cbv zeta; advanced_simpl;
  rewrite ?advanced_advanced.

(** X4. Frame-rate independence: an [update] in between changes nothing.
    For times [lastTime <= t1 <= t2], updating at [t1] and then at [t2]
    leaves the particle in the state a single update at [t2] gives: same
    distance, alpha, fade direction and liveness. *)
Theorem update_update (p : SmokeParticle.t) (t1 t2 : R) :
  SmokeParticle.lastTime p <= t1 ->
  t1 <= t2 ->
  SmokeParticle.update (SmokeParticle.update p t1) t2 =
  SmokeParticle.update p t2.
Proof.
  intros H1 H2.
  rewrite (update_view p t1), (update_view p t2). cbv zeta.
  destruct (Req_dec_T ((t1 - SmokeParticle.lastTime p) / 1000) 0)
    as [E1|N1].
  { update_advanced.
    assert (E : t1 = SmokeParticle.lastTime p) by lra. rewrite E.
    reflexivity. }
  destruct (Req_dec_T ((t2 - SmokeParticle.lastTime p) / 1000) 0)
    as [E2|N2]; [exfalso; lra|].
  destruct (SmokeParticle.alphaDirection p =? 1)%Z eqn:D1;
    [|destruct (SmokeParticle.alphaDirection p =? -1)%Z eqn:D2].
  - destruct (Rge_dec _ 255) as [Hc|Hc]; update_advanced;
      rewrite ?D1; cbn [Z.eqb Pos.eqb]; update_cases; update_close.
  - destruct (Rle_dec _ 0) as [Hc|Hc]; update_advanced;
      rewrite ?D1, ?D2; cbn [Z.eqb Pos.eqb]; update_cases; update_close.
  - update_advanced. rewrite ?D1, ?D2. update_cases; update_close.
Qed.

Lemma update_update_witness :
  SmokeParticle.update (SmokeParticle.update sampleParticle 1500) 2500 =
  SmokeParticle.update sampleParticle 2500.
Proof.
  apply (update_update sampleParticle 1500 2500); simpl; lra.
Defined.

Lemma fadeOut_fields p :
  SmokeParticle.alpha (SmokeParticle.fadeOut p) = 255 /\
  SmokeParticle.alphaDirection (SmokeParticle.fadeOut p) = (-1)%Z /\
  SmokeParticle.isAlive (SmokeParticle.fadeOut p) = SmokeParticle.isAlive p /\
  SmokeParticle.lastTime (SmokeParticle.fadeOut p) = SmokeParticle.lastTime p.
Proof. now destruct p. Qed.

Lemma fadeIn_fields p :
  SmokeParticle.alpha (SmokeParticle.fadeIn p) = 0 /\
  SmokeParticle.alphaDirection (SmokeParticle.fadeIn p) = 1%Z /\
  SmokeParticle.isAlive (SmokeParticle.fadeIn p) = SmokeParticle.isAlive p /\
  SmokeParticle.lastTime (SmokeParticle.fadeIn p) = SmokeParticle.lastTime p.
Proof. now destruct p. Qed.

(** X5. A fade lasts 850 ms.  After [fadeOut], an update [t - lastTime]
    milliseconds later leaves alpha at [255 - 0.3 (t - lastTime)] and the
    particle as alive as it was while less than 850 ms have passed, and
    kills it (alpha 0, direction 0) from 850 ms on.  After [fadeIn], alpha
    is [0.3 (t - lastTime)] and the particle is still fading in before
    850 ms, and steady at alpha 255 from then on. *)
Theorem fade_duration (p : SmokeParticle.t) (t : R) :
  SmokeParticle.lastTime p < t ->
  let elapsed := t - SmokeParticle.lastTime p in
  let faded := SmokeParticle.update (SmokeParticle.fadeOut p) t in
  let shown := SmokeParticle.update (SmokeParticle.fadeIn p) t in
  SmokeParticle.alpha faded = Rmax 0 (255 - 300 * (elapsed / 1000)) /\
  SmokeParticle.alphaDirection faded =
    (if Rlt_dec elapsed 850 then -1 else 0)%Z /\
  SmokeParticle.isAlive faded =
    (if Rlt_dec elapsed 850 then SmokeParticle.isAlive p else false) /\
  SmokeParticle.alpha shown = Rmin 255 (300 * (elapsed / 1000)) /\
  SmokeParticle.alphaDirection shown =
    (if Rlt_dec elapsed 850 then 1 else 0)%Z /\
  SmokeParticle.isAlive shown = SmokeParticle.isAlive p.
Proof.
  intros Ht elapsed faded shown. subst elapsed faded shown.
  rewrite !update_view. cbv zeta.
  destruct (fadeOut_fields p) as (-> & -> & -> & ->).
  destruct (fadeIn_fields p) as (-> & -> & -> & ->).
  cbn [Z.eqb Pos.eqb].
  set (l := SmokeParticle.lastTime p) in *.
  destruct (Req_dec_T ((t - l) / 1000) 0) as [E|_]; [exfalso; lra|].
  destruct (Rle_dec (255 - 300 * ((t - l) / 1000)) 0) as [Hout|Hout];
    destruct (Rge_dec (0 + 300 * ((t - l) / 1000)) 255) as [Hin|Hin];
    destruct (Rlt_dec (t - l) 850) as [Hlt|Hge];
    try (exfalso; lra); advanced_simpl; split_and!; try reflexivity.
  - rewrite Rmax_left; lra.
  - rewrite Rmin_left; lra.
  - rewrite Rmax_right; lra.
  - rewrite Rmin_right; lra.
Qed.

Lemma fade_duration_witness :
  let elapsed := 4000 - SmokeParticle.lastTime fadingParticle in
  let faded :=
    SmokeParticle.update (SmokeParticle.fadeOut fadingParticle) 4000 in
  let shown :=
    SmokeParticle.update (SmokeParticle.fadeIn fadingParticle) 4000 in
  SmokeParticle.alpha faded = Rmax 0 (255 - 300 * (elapsed / 1000)) /\
  SmokeParticle.alphaDirection faded =
    (if Rlt_dec elapsed 850 then -1 else 0)%Z /\
  SmokeParticle.isAlive faded =
    (if Rlt_dec elapsed 850 then SmokeParticle.isAlive fadingParticle
     else false) /\
  SmokeParticle.alpha shown = Rmin 255 (300 * (elapsed / 1000)) /\
  SmokeParticle.alphaDirection shown =
    (if Rlt_dec elapsed 850 then 1 else 0)%Z /\
  SmokeParticle.isAlive shown = SmokeParticle.isAlive fadingParticle.
Proof.
  apply (fade_duration fadingParticle 4000). simpl. lra.
Defined.

(** ** SmokeParticle: construction *)

(** X6. A particle comes out of its constructor with the distance offset as
    its distance, a speed in [100, 150), a gap in [0, 20), alpha 0 and
    fading in (the initial alpha 255 is overwritten by [fadeIn]), alive,
    and with [lastTime] equal to its creation time, the reading of the
    clock; a given [xoffOrigin] is kept. *)
Theorem particle_constructor_spec (distanceOffset : R)
    (xoffOrigin : option R) (h : Host) :
  wellFormedHost h ->
  exists p h',
    SmokeParticle.constructor distanceOffset xoffOrigin h = Normal (p, h') /\
    SmokeParticle.distance p = distanceOffset /\
    100 <= SmokeParticle.speed p < 150 /\
    0 <= SmokeParticle.gap p < 20 /\
    freshParticle p /\
    SmokeParticle.creationTime p = clockSource h (ticks h) /\
    (forall xo, xoffOrigin = Some xo -> SmokeParticle.xoffOrigin p = xo) /\
    ticks h' = S (ticks h).
Proof.
  intros Hwf.
  unfold SmokeParticle.constructor, bind, random1, random2, rawRandom,
    millis, ret, bind.
  destruct xoffOrigin as [xo|]; cbn;
    (destruct (Rgt_dec 100 150) as [Hgt|_]; [lra|]); cbn;
    eexists; eexists; (split; [reflexivity|]); cbn;
    unfold freshParticle; cbn.
  - pose proof (Hwf (draws h)) as Hs.
    pose proof (Hwf (S (S (draws h)))) as Hg.
    split_and!; try reflexivity; try lra.
    intros xo' [= <-]. reflexivity.
  - pose proof (Hwf (S (draws h))) as Hs.
    pose proof (Hwf (S (S (S (draws h))))) as Hg.
    split_and!; try reflexivity; try lra.
    intros xo' [=].
Qed.

Lemma particle_constructor_spec_witness :
  exists p h',
    SmokeParticle.constructor 1.5 (Some 42) sampleHost = Normal (p, h') /\
    SmokeParticle.distance p = 1.5 /\
    100 <= SmokeParticle.speed p < 150 /\
    0 <= SmokeParticle.gap p < 20 /\
    freshParticle p /\
    SmokeParticle.creationTime p = clockSource sampleHost (ticks sampleHost) /\
    (forall xo, Some 42 = Some xo -> SmokeParticle.xoffOrigin p = xo) /\
    ticks h' = S (ticks sampleHost).
Proof.
  apply (particle_constructor_spec 1.5 (Some 42) sampleHost).
  intros n. simpl. lra.
Defined.

(** ** Smoke: the generated path *)

Lemma smokeSegments_angle noiseField n : forall xoff,
  (forall x, 0 <= noiseField x <= 1) ->
  Forall (fun segment =>
            PathSegment.distance segment = 2 /\
            - (PI / 40) <= PathSegment.angle segment <= PI / 40)
    (smokeSegments noiseField n xoff).
Proof.
  intros xoff Hnoise. revert xoff.
  induction n as [|n IH]; intros xoff; simpl; constructor; auto.
  cbn [PathSegment.distance PathSegment.angle]. split; [reflexivity|].
  pose proof (Hnoise xoff) as Hx. pose proof PI_RGT_0 as Hpi.
  unfold HALF_PI. nra.
Qed.

(** X7. [createSmokePath(length)] draws one random number and appends
    exactly [length] segments (none for a length of zero or less) to the
    segments there are, touching nothing else; each new segment has
    distance 2 and, the noise being in [0, 1], turns by at most pi/40. *)
Theorem createSmokePath_spec (length : Z) (this : Smoke.t) (h : Host) :
  boundedNoise h ->
  exists new h',
    Smoke.createSmokePath length this h =
      Normal (Smoke.mk
                (Path.mk (Smoke.originPosition this)
                   (Smoke.originHeading this) (Smoke.segments this ++ new))
                (Smoke.particles this), h') /\
    List.length new = Z.to_nat length /\
    Forall (fun segment =>
              PathSegment.distance segment = 2 /\
              - (PI / 40) <= PathSegment.angle segment <= PI / 40) new /\
    draws h' = S (draws h) /\ ticks h' = ticks h.
Proof.
  intros Hnoise.
  unfold Smoke.createSmokePath, bind, random1, rawRandom, ret, bind.
  rewrite createSmokePath_loop_spec.
  cbn [randomSource noiseField clockSource draws ticks].
  eexists. eexists. split; [reflexivity|].
  cbn [randomSource noiseField clockSource draws ticks].
  split_and!; try reflexivity.
  - apply smokeSegments_length.
  - now apply smokeSegments_angle.
Qed.

Lemma createSmokePath_spec_witness :
  exists new h',
    Smoke.createSmokePath 3 sampleSmoke sampleHost =
      Normal (Smoke.mk
                (Path.mk (Smoke.originPosition sampleSmoke)
                   (Smoke.originHeading sampleSmoke)
                   (Smoke.segments sampleSmoke ++ new))
                (Smoke.particles sampleSmoke), h') /\
    List.length new = Z.to_nat 3 /\
    Forall (fun segment =>
              PathSegment.distance segment = 2 /\
              - (PI / 40) <= PathSegment.angle segment <= PI / 40) new /\
    draws h' = S (draws sampleHost) /\ ticks h' = ticks sampleHost.
Proof.
  apply (createSmokePath_spec 3 sampleSmoke sampleHost).
  intros x. simpl. lra.
Defined.

(** ** Smoke: construction *)

(** X8. The number of segments of a constructed Smoke lies between the
    floors of the smaller and of the larger of [minLength] and [maxLength],
    in whichever order they are given (for non-negative lengths and a
    generator in [0, 1)). *)
Theorem constructor_length_bounds (figure : Figure.t)
    (branchIndex minLength maxLength : option R) (h : Host) :
  let minL := default 50 minLength in
  let maxL := default 100 maxLength in
  wellFormedHost h ->
  0 <= Rmin minL maxL ->
  exists s h',
    Smoke.constructor figure branchIndex minLength maxLength h =
      Normal (s, h') /\
    (floor (Rmin minL maxL) <= Z.of_nat (length (Smoke.segments s))
     <= floor (Rmax minL maxL))%Z.
Proof.
  intros minL maxL Hwf Hnonneg.
  destruct (constructor_spec figure branchIndex minLength maxLength h)
    as (location & s & h' & p0 & p1 & Hc & _ & _ & _ & Hsegs & _).
  exists s, h'. split; [exact Hc|].
  rewrite Hsegs, smokeSegments_length. fold minL maxL.
  set (rand := randomSource h _).
  assert (Hrand : 0 <= rand < 1) by apply Hwf.
  set (r := if Rgt_dec minL maxL then _ else _).
  assert (Hr : Rmin minL maxL <= r <= Rmax minL maxL).
  { unfold r, Rmin, Rmax.
    destruct (Rgt_dec minL maxL) as [Hgt|Hle];
      destruct (Rle_dec minL maxL) as [Hle'|Hgt']; try lra.
    - assert (rand * (minL - maxL) <= 1 * (minL - maxL))
        by (apply Rmult_le_compat_r; lra).
      assert (0 <= rand * (minL - maxL))
        by (apply Rmult_le_pos; lra).
      lra.
    - assert (rand * (maxL - minL) <= 1 * (maxL - minL))
        by (apply Rmult_le_compat_r; lra).
      assert (0 <= rand * (maxL - minL))
        by (apply Rmult_le_pos; lra).
      lra. }
  assert (H0 : (0 <= floor (Rmin minL maxL))%Z)
    by (apply Zfloor_lub; simpl; lra).
  assert (Hlow : (floor (Rmin minL maxL) <= floor r)%Z)
    by (apply Zfloor_le; lra).
  assert (Hhigh : (floor r <= floor (Rmax minL maxL))%Z)
    by (apply Zfloor_le; lra).
  rewrite Z2Nat.id by lia. lia.
Qed.

Lemma constructor_length_bounds_witness :
  exists s h',
    Smoke.constructor sampleFigure (Some 1) (Some 30) (Some 20) sampleHost =
      Normal (s, h') /\
    (floor (Rmin 30 20) <= Z.of_nat (length (Smoke.segments s))
     <= floor (Rmax 30 20))%Z.
Proof.
  apply (constructor_length_bounds sampleFigure (Some 1) (Some 30) (Some 20)
           sampleHost).
  - intros n. simpl. lra.
  - unfold Rmin. simpl. destruct (Rle_dec 30 20); lra.
Defined.

Lemma draw_lookup_traverse figure k :
  (k <= length (Path.segments figure))%nat ->
  Figure.draw figure !! k =
  Some (Smoke.offset
          (traverse (take k (Path.segments figure))
             (Path.originPosition figure) (Path.originHeading figure))).
Proof.
  intros Hk. unfold Figure.draw, p5.Vector.copy.
  destruct k as [|k]; [reflexivity|].
  cbn [lookup list_lookup]. apply draw_loop_lookup. lia.
Qed.

(** X9. Without a branch index, the Smoke branches off at a vertex of the
    parent chosen by the generator among the starts of its segments, never
    at its end point: for a parent with segments, the Smoke's origin is the
    vertex number [k] that [Figure.draw] emits for the parent, for some
    [k < segments.length], and its heading is the parent's heading there. *)
Theorem constructor_branches_at_vertex (figure : Figure.t)
    (minLength maxLength : option R) (h : Host) :
  wellFormedHost h ->
  Path.segments figure <> [] ->
  exists s h' k,
    Smoke.constructor figure None minLength maxLength h = Normal (s, h') /\
    (k < length (Path.segments figure))%nat /\
    Figure.draw figure !! k = Some (Smoke.originPosition s) /\
    Smoke.originHeading s =
      Path.originHeading figure + angleSum (take k (Path.segments figure)).
Proof.
  intros Hwf Hne.
  destruct (constructor_spec figure None minLength maxLength h)
    as (location & s & h' & p0 & p1 & Hc & Hw & Hpos & Hhead & _).
  cbv zeta in Hw.
  set (n := length (Path.segments figure)) in *.
  assert (Hn : (0 < n)%nat).
  { unfold n. destruct (Path.segments figure); [contradiction|simpl; lia]. }
  set (rand := randomSource h (draws h)) in *.
  assert (Hrand : 0 <= rand < 1) by apply Hwf.
  set (r := rand * INR n) in *.
  assert (HINR : 0 < INR n) by (apply lt_0_INR; lia).
  assert (Hr : 0 <= r < INR n).
  { unfold r. split; [apply Rmult_le_pos; lra|].
    assert (rand * INR n < 1 * INR n) by (apply Rmult_lt_compat_r; lra).
    lra. }
  assert (Hz0 : (0 <= floor r)%Z) by (apply Zfloor_lub; simpl; lra).
  assert (Hzn : (floor r < Z.of_nat n)%Z).
  { apply lt_IZR. pose proof (Zfloor_bound r) as [Hb _]. unfold floor.
    rewrite <- INR_IZR_INZ. lra. }
  set (k := Z.to_nat (floor r)).
  assert (Hk : IZR (floor r) = INR k).
  { unfold k. rewrite INR_IZR_INZ, Z2Nat.id by lia. reflexivity. }
  rewrite Hk, walkToSegment_take in Hw. injection Hw as <-.
  exists s, h', k. split_and!; try assumption.
  - unfold k. lia.
  - rewrite Hpos. apply draw_lookup_traverse. unfold k. fold n. lia.
  - rewrite Hhead. apply traverse_heading.
Qed.

Lemma constructor_branches_at_vertex_witness :
  exists s h' k,
    Smoke.constructor sampleFigure None None None sampleHost =
      Normal (s, h') /\
    (k < length (Path.segments sampleFigure))%nat /\
    Figure.draw sampleFigure !! k = Some (Smoke.originPosition s) /\
    Smoke.originHeading s =
      Path.originHeading sampleFigure
      + angleSum (take k (Path.segments sampleFigure)).
Proof.
  apply (constructor_branches_at_vertex sampleFigure None None sampleHost).
  - intros n. simpl. lra.
  - discriminate.
Defined.

(** ** Smoke.calculateParticlePositions: every particle at its place *)

(** The final loop, index by index. *)
Lemma pinParticles_lookup position : forall n i ps,
  (i + n = length ps)%nat ->
  exists ps',
    Smoke.pinParticles position n i ps = Normal ps' /\
    length ps' = length ps /\
    (forall j, (j < i)%nat -> ps' !! j = ps !! j) /\
    (forall j q, (i <= j)%nat -> ps !! j = Some q ->
       ps' !! j = Some (pin position q)).
Proof.
  induction n as [|n IH]; intros i ps Hn.
  - exists ps. split_and!; try reflexivity.
    intros j q Hj Hq. apply lookup_lt_Some in Hq. lia.
  - cbn [Smoke.pinParticles].
    destruct (ps !! i) as [q|] eqn:Hq.
    2:{ apply lookup_ge_None in Hq. lia. }
    fold (pin position q).
    destruct (IH (S i) (<[i := pin position q]> ps)) as
      (ps' & Hpin & Hlen & Hbelow & Hfrom).
    { rewrite length_insert. lia. }
    exists ps'. rewrite length_insert in Hlen. split_and!; try assumption.
    + intros j Hj. rewrite Hbelow by lia.
      apply list_lookup_insert_ne. lia.
    + intros j q' Hj Hq'. destruct (decide (j = i)) as [->|Hne].
      * rewrite Hbelow by lia.
        rewrite list_lookup_insert_eq by (apply lookup_lt_Some in Hq; lia).
        congruence.
      * apply Hfrom; [lia|]. rewrite list_lookup_insert_ne by congruence.
        exact Hq'.
Qed.

Section PlaceExact.

Variable segment : PathSegment.t.
Variables vector position : p5.Vector.t.

(** The [while] loop with [c] of arc length behind: the particles it
    passes are those within reach of the segment, each placed at its own
    distance minus [c] along the segment; the particle it stops at is out
    of reach. *)
Lemma placeParticles_exact (c : R) : forall n ps idx remainingDistance q,
  (idx + S n = length ps)%nat ->
  ps !! idx = Some q ->
  remainingDistance = SmokeParticle.distance q - c ->
  exists exit,
    Smoke.placeParticles segment vector position ps idx remainingDistance =
      Normal exit /\
    exists ps' idx',
      (exit = Smoke.Returned ps' /\ idx' = length ps \/
       exists q',
         exit = Smoke.Broke ps' idx' (SmokeParticle.distance q' - c) /\
         ps !! idx' = Some q' /\
         ~ PathSegment.distance segment >= SmokeParticle.distance q' - c) /\
      length ps' = length ps /\
      (idx <= idx')%nat /\
      (forall j, (j < idx)%nat \/ (idx' <= j)%nat -> ps' !! j = ps !! j) /\
      (forall j q', (idx <= j < idx')%nat -> ps !! j = Some q' ->
         PathSegment.distance segment >= SmokeParticle.distance q' - c /\
         ps' !! j =
           Some (Smoke.placeAt position vector
                   (SmokeParticle.distance q' - c) q')).
Proof.
  induction n as [|n IH]; intros ps idx remaining q Hn Hq Hrem;
    rewrite placeParticles_unfold;
    (destruct (Rge_dec _ _) as [Hge|Hlt];
     [|eexists; split; [reflexivity|]; exists ps, idx; split_and!;
       [right; exists q; subst remaining; split_and!;
        [reflexivity|assumption|assumption]
       |reflexivity|lia|reflexivity|intros; lia]]);
    rewrite Hq; cbv zeta; rewrite length_insert;
    (destruct (le_dec _ _) as [Hle|Hgt]; [|try lia]).
  - (* the last particle: return *)
    eexists; split; [reflexivity|].
    eexists _, (length ps). split_and!.
    + left. split; reflexivity.
    + apply length_insert.
    + lia.
    + intros j [Hj|Hj]; [now rewrite list_lookup_insert_ne by lia|].
      rewrite !(lookup_ge_None_2) by (rewrite ?length_insert; lia).
      reflexivity.
    + intros j q' Hj Hq'. assert (j = idx) by lia. subst j.
      assert (q' = q) by congruence. subst q' remaining.
      split; [assumption|]. apply list_lookup_insert_eq. lia.
  - lia.
  - (* a further particle: next iteration *)
    set (placed := Smoke.placeAt position vector remaining q).
    destruct (ps !! S idx) as [qn|] eqn:Hqn.
    2:{ apply lookup_ge_None in Hqn. lia. }
    rewrite list_lookup_insert_ne, Hqn by lia.
    replace (S idx - 1)%nat with idx by lia.
    rewrite list_lookup_insert_eq by lia.
    assert (Hd : SmokeParticle.distance placed = SmokeParticle.distance q)
      by reflexivity.
    destruct (IH (<[idx := placed]> ps) (S idx)
                (remaining + (SmokeParticle.distance qn
                              - SmokeParticle.distance placed)) qn)
      as (exit & Hexit & ps' & idx' & Hhow & Hlen & Hidx & Hsame & Hplaced).
    { rewrite length_insert. lia. }
    { now rewrite list_lookup_insert_ne by lia. }
    { rewrite Hd. lra. }
    rewrite length_insert in Hlen, Hhow.
    exists exit. split; [exact Hexit|]. exists ps', idx'. split_and!.
    + destruct Hhow as [[-> ->]|(q' & -> & Hq' & Hout)].
      * left. split; reflexivity.
      * right. exists q'. split_and!; try reflexivity; try assumption.
        rewrite list_lookup_insert_ne in Hq' by lia. exact Hq'.
    + exact Hlen.
    + lia.
    + intros j Hj. rewrite Hsame by lia.
      apply list_lookup_insert_ne. lia.
    + intros j q' Hj Hq'. destruct (decide (j = idx)) as [->|Hne].
      * assert (q' = q) by congruence. subst q'. split; [lra|].
        rewrite Hsame by lia. rewrite list_lookup_insert_eq by lia.
        unfold placed. now rewrite Hrem.
      * apply Hplaced; [lia|]. now rewrite list_lookup_insert_ne by lia.
Qed.

End PlaceExact.

(** The walk over the segments with [c] of arc length behind, on particles
    in ascending order from [idx] on: each of them ends up where a walk of
    these segments for its own distance puts it, or pinned at the end. *)
Lemma walkSegments_exact : forall segments ps idx remainingDistance
    position heading q c,
  (forall i j p p', (idx <= i <= j)%nat -> ps !! i = Some p ->
     ps !! j = Some p' ->
     SmokeParticle.distance p <= SmokeParticle.distance p') ->
  ps !! idx = Some q ->
  remainingDistance = SmokeParticle.distance q - c ->
  exists ps',
    Smoke.walkSegments segments ps idx remainingDistance position heading =
      Normal ps' /\
    length ps' = length ps /\
    (forall j, (j < idx)%nat -> ps' !! j = ps !! j) /\
    (forall j q', (idx <= j)%nat -> ps !! j = Some q' ->
       ps' !! j =
       Some match pointAt segments position heading
                    (SmokeParticle.distance q' - c) with
            | Some v => SmokeParticle.set_position v q'
            | None =>
                pin (Smoke.offset (traverse segments position heading)) q'
            end).
Proof.
  induction segments as [|segment rest IH];
    intros ps idx remaining position heading q c Hasc Hq Hrem.
  - cbn [Smoke.walkSegments traverse Smoke.offset pointAt].
    apply lookup_lt_Some in Hq as Hidx.
    destruct (pinParticles_lookup position (length ps - idx) idx ps)
      as (ps' & Hpin & Hlen & Hbelow & Hfrom); [lia|].
    exists ps'. split_and!; assumption.
  - cbn [Smoke.walkSegments traverse pointAt].
    set (heading' := heading + PathSegment.angle segment).
    set (vector := p5.Vector.fromAngle heading'
                     (PathSegment.distance segment)).
    apply lookup_lt_Some in Hq as Hidx.
    destruct (placeParticles_exact segment vector position c
                (length ps - S idx) ps idx remaining q)
      as (exit & Hexit & ps' & idx' & Hhow & Hlen & Hle & Hsame & Hplaced);
      try assumption; try lia.
    rewrite Hexit.
    assert (Hin : forall j q', (idx <= j < idx')%nat -> ps !! j = Some q' ->
              ps' !! j =
              Some match
                     (if Rge_dec (PathSegment.distance segment)
                           (SmokeParticle.distance q' - c)
                      then Some (p5.Vector.add position
                                   (p5.Vector.setMag vector
                                      (SmokeParticle.distance q' - c)))
                      else pointAt rest (p5.Vector.add position vector)
                             heading'
                             (SmokeParticle.distance q' - c
                              - p5.Vector.mag vector)) with
                   | Some v => SmokeParticle.set_position v q'
                   | None =>
                       pin (Smoke.offset
                              (traverse rest (p5.Vector.add position vector)
                                 heading')) q'
                   end).
    { intros j q' Hj Hq'. destruct (Hplaced j q' Hj Hq') as [Hreach ->].
      destruct (Rge_dec _ _) as [_|Hn]; [reflexivity|contradiction]. }
    destruct Hhow as [[-> ->]|(q'' & -> & Hq'' & Hout)].
    + exists ps'. split_and!; try assumption; try reflexivity.
      * intros j Hj. apply Hsame. now left.
      * intros j q' Hj Hq'. apply Hin; [|assumption].
        apply lookup_lt_Some in Hq'. lia.
    + apply lookup_lt_Some in Hq'' as Hidx'.
      destruct (IH ps' idx'
                  (SmokeParticle.distance q'' - c - p5.Vector.mag vector)
                  (p5.Vector.add position vector) heading' q''
                  (c + p5.Vector.mag vector))
        as (ps'' & Hwalk & Hlen' & Hbelow & Hfrom).
      { intros i j p p' Hij Hp Hp'.
        rewrite Hsame in Hp, Hp' by lia.
        apply (Hasc i j); [lia|assumption|assumption]. }
      { rewrite Hsame by lia. exact Hq''. }
      { lra. }
      exists ps''. split_and!; try assumption; try lia.
      * intros j Hj. rewrite Hbelow by lia. apply Hsame. now left.
      * intros j q' Hj Hq'. destruct (le_lt_dec idx' j) as [Hfar|Hnear].
        -- rewrite (Hfrom j q' Hfar) by (rewrite Hsame by lia; exact Hq').
           assert (Hd : SmokeParticle.distance q'' <=
                        SmokeParticle.distance q')
             by (apply (Hasc idx' j); [lia|assumption|assumption]).
           destruct (Rge_dec _ _) as [Hy|_]; [exfalso; lra|].
           replace (SmokeParticle.distance q' - (c + p5.Vector.mag vector))
             with (SmokeParticle.distance q' - c - p5.Vector.mag vector)
             by lra.
           reflexivity.
        -- rewrite Hbelow by lia. apply Hin; [lia|assumption].
Qed.

(** On particles in ascending order the single pass computes what one walk
    per particle computes. *)
Lemma calculateParticlePositions_locate (this : Smoke.t) :
  ascending (Smoke.particles this) ->
  exists this',
    Smoke.calculateParticlePositions this = Normal this' /\
    Smoke.super this' = Smoke.super this /\
    Smoke.particles this' = map (locate this) (Smoke.particles this).
Proof.
  intros Hasc. unfold Smoke.calculateParticlePositions.
  destruct (Smoke.particles this) as [|first others] eqn:Hps.
  - exists this. rewrite Hps. split_and!; reflexivity.
  - destruct (walkSegments_exact (Smoke.segments this) (first :: others) 0
                (SmokeParticle.distance first)
                (p5.Vector.copy (Smoke.originPosition this))
                (Smoke.originHeading this) first 0)
      as (ps' & Hwalk & Hlen & _ & Hfrom).
    { intros i j p p' Hij. apply Hasc. lia. }
    { reflexivity. }
    { lra. }
    rewrite Hwalk. exists (Smoke.set_particles ps' this).
    split_and!; try reflexivity.
    cbn [Smoke.particles Smoke.set_particles].
    apply list_eq. intros j.
    change (map (locate this) (first :: others))
      with (locate this <$> (first :: others)).
    rewrite list_lookup_fmap.
    destruct ((first :: others) !! j) as [q|] eqn:Hq.
    + rewrite (Hfrom j q ltac:(lia) Hq). cbn [fmap option_fmap option_map].
      unfold locate, p5.Vector.copy.
      rewrite Rminus_0_r, finalVertex_traverse. reflexivity.
    + apply lookup_ge_None. apply lookup_ge_None in Hq. lia.
Qed.

Lemma locate_distance this p :
  SmokeParticle.distance (locate this p) = SmokeParticle.distance p.
Proof.
  unfold locate, pin. destruct (pointAt _ _ _ _); [reflexivity|].
  cbn. now destruct (SmokeParticle.alphaDirection p =? -1)%Z.
Qed.

Lemma locate_isAlive this p :
  SmokeParticle.isAlive (locate this p) = SmokeParticle.isAlive p.
Proof.
  unfold locate, pin. destruct (pointAt _ _ _ _); [reflexivity|].
  cbn. now destruct (SmokeParticle.alphaDirection p =? -1)%Z.
Qed.

(** X10. [calculateParticlePositions] on particles in ascending order of
    distance puts every particle where a walk of the path for that particle
    alone puts it: at the point of the path at the particle's distance, or,
    when the path is shorter, pinned at the final vertex (fading out).  The
    single pass over segments and particles computes the same as one walk
    per particle; nothing throws, the path and the number of particles are
    unchanged, and every particle keeps its distance and its liveness. *)
Theorem calculateParticlePositions_exact (this : Smoke.t) :
  ascending (Smoke.particles this) ->
  exists this',
    Smoke.calculateParticlePositions this = Normal this' /\
    Smoke.super this' = Smoke.super this /\
    Smoke.particles this' = map (locate this) (Smoke.particles this) /\
    length (Smoke.particles this') = length (Smoke.particles this) /\
    Forall2 (fun p q =>
               SmokeParticle.distance q = SmokeParticle.distance p /\
               SmokeParticle.isAlive q = SmokeParticle.isAlive p)
      (Smoke.particles this) (Smoke.particles this').
Proof.
  intros Hasc.
  destruct (calculateParticlePositions_locate this Hasc)
    as (this' & Hcalc & Hsuper & Hps).
  exists this'. rewrite Hps. split_and!; try assumption; try reflexivity.
  - apply length_map.
  - apply Forall2_same_length_lookup_2; [now rewrite length_map|].
    intros i p q Hp Hq.
    change (map (locate this) (Smoke.particles this))
      with (locate this <$> Smoke.particles this) in Hq.
    rewrite list_lookup_fmap, Hp in Hq. injection Hq as <-.
    split; [apply locate_distance|apply locate_isAlive].
Qed.

Lemma calculateParticlePositions_exact_witness :
  exists this',
    Smoke.calculateParticlePositions sampleSmoke = Normal this' /\
    Smoke.super this' = Smoke.super sampleSmoke /\
    Smoke.particles this' =
      map (locate sampleSmoke) (Smoke.particles sampleSmoke) /\
    length (Smoke.particles this') = length (Smoke.particles sampleSmoke) /\
    Forall2 (fun p q =>
               SmokeParticle.distance q = SmokeParticle.distance p /\
               SmokeParticle.isAlive q = SmokeParticle.isAlive p)
      (Smoke.particles sampleSmoke) (Smoke.particles this').
Proof.
  apply (calculateParticlePositions_exact sampleSmoke).
  intros i j p q Hij Hp Hq.
  destruct i as [|[|i]], j as [|[|j]]; simpl in Hp, Hq;
    try discriminate; try lia;
    injection Hp as <-; injection Hq as <-; simpl; lra.
Defined.

(** On a path with segments, of distances >= 0, the walk for one distance
    finds a point exactly when the distance is within the arc length. *)
Lemma pointAt_within segments : forall position heading d,
  Forall (fun s => 0 <= PathSegment.distance s) segments ->
  segments <> [] \/ 0 < d ->
  (is_Some (pointAt segments position heading d) <->
   d <= totalLength segments).
Proof.
  induction segments as [|segment rest IH]; intros position heading d Hpos Hne.
  - destruct Hne as [Hne|Hd]; [contradiction|].
    cbn. unfold totalLength; simpl. split; [intros [v Hv]; discriminate|lra].
  - cbn [pointAt].
    pose proof (Forall_inv Hpos) as Hseg.
    pose proof (Forall_inv_tail Hpos) as Hrest.
    pose proof (totalLength_nonneg rest Hrest) as Hnonneg.
    assert (Htotal : totalLength (segment :: rest) =
                     PathSegment.distance segment + totalLength rest)
      by reflexivity.
    destruct (Rge_dec _ _) as [Hge|Hlt].
    + split; [intros _; lra|intros _; eauto].
    + rewrite mag_fromAngle by assumption.
      rewrite IH by (try assumption; right; lra). lra.
Qed.

(** X11. A particle within the path keeps its fade: after
    [calculateParticlePositions] (particles ascending, a path with
    segments, distances >= 0) a particle whose distance is at most the
    total path length has a new position and is otherwise unchanged; no
    [fadeOut] is triggered on it. *)
Theorem calculateParticlePositions_within (this : Smoke.t) (k : nat)
    (p : SmokeParticle.t) :
  Forall (fun s => 0 <= PathSegment.distance s) (Smoke.segments this) ->
  Smoke.segments this <> [] ->
  ascending (Smoke.particles this) ->
  Smoke.particles this !! k = Some p ->
  SmokeParticle.distance p <= totalLength (Smoke.segments this) ->
  exists this' v,
    Smoke.calculateParticlePositions this = Normal this' /\
    pointAt (Smoke.segments this) (Smoke.originPosition this)
      (Smoke.originHeading this) (SmokeParticle.distance p) = Some v /\
    Smoke.particles this' !! k = Some (SmokeParticle.set_position v p).
Proof.
  intros Hpos Hne Hasc Hp Hwithin.
  destruct (calculateParticlePositions_locate this Hasc)
    as (this' & Hcalc & _ & Hps).
  destruct (proj2 (pointAt_within (Smoke.segments this)
                     (Smoke.originPosition this) (Smoke.originHeading this)
                     (SmokeParticle.distance p) Hpos (or_introl Hne))
              Hwithin) as [v Hv].
  exists this', v. split_and!; try assumption.
  rewrite Hps.
  change (map (locate this) (Smoke.particles this))
    with (locate this <$> Smoke.particles this).
  rewrite list_lookup_fmap, Hp. cbn [fmap option_fmap option_map].
  unfold locate. now rewrite Hv.
Qed.

Lemma calculateParticlePositions_within_witness :
  exists this' v,
    Smoke.calculateParticlePositions sampleSmoke = Normal this' /\
    pointAt (Smoke.segments sampleSmoke) (Smoke.originPosition sampleSmoke)
      (Smoke.originHeading sampleSmoke)
      (SmokeParticle.distance
         (SmokeParticle.mk 7 120 1 1000 1100 (createVector 0 0) 3 0.2 5 30
            1%Z true)) = Some v /\
    Smoke.particles this' !! 0%nat =
      Some (SmokeParticle.set_position v
              (SmokeParticle.mk 7 120 1 1000 1100 (createVector 0 0) 3 0.2 5
                 30 1%Z true)).
Proof.
  apply (calculateParticlePositions_within sampleSmoke 0).
  - repeat constructor; simpl; lra.
  - discriminate.
  - intros i j p q Hij Hp Hq.
    destruct i as [|[|i]], j as [|[|j]]; simpl in Hp, Hq;
      try discriminate; try lia;
      injection Hp as <-; injection Hq as <-; simpl; lra.
  - reflexivity.
  - unfold totalLength. simpl. lra.
Defined.

(** ** Smoke.update: the whole frame *)

Lemma ascending_cons a l :
  ascending (a :: l) <->
  Forall (fun q => SmokeParticle.distance a <= SmokeParticle.distance q) l /\
  ascending l.
Proof.
  split.
  - intros Hasc. split.
    + apply List.Forall_forall. intros q Hq.
      apply list_elem_of_In, list_elem_of_lookup in Hq as [j Hj].
      apply (Hasc 0%nat (S j)); [lia|reflexivity|exact Hj].
    + intros i j p q Hij Hp Hq. apply (Hasc (S i) (S j)); [lia|exact Hp|exact Hq].
  - intros [Hall Hasc] i j p q Hij Hp Hq.
    destruct i as [|i], j as [|j]; cbn in Hp, Hq.
    + injection Hp as <-. injection Hq as <-. lra.
    + injection Hp as <-. rewrite List.Forall_forall in Hall.
      apply Hall. apply list_elem_of_In, list_elem_of_lookup. eauto.
    + lia.
    + apply (Hasc i j); [lia|exact Hp|exact Hq].
Qed.

Lemma sort_insert_ascending a l :
  ascending l -> ascending (Smoke.sort_insert a l).
Proof.
  induction l as [|b l IH]; intros Hasc; cbn [Smoke.sort_insert].
  - apply ascending_cons. split; [constructor|].
    intros i j p q _ Hp. destruct i; discriminate.
  - apply ascending_cons in Hasc as Hbl. destruct Hbl as [Hb Hl].
    destruct (Rle_dec _ _) as [Hle|Hgt].
    + apply ascending_cons. split; [|exact Hasc].
      constructor; [lra|].
      eapply List.Forall_impl; [|exact Hb]. intros q Hq. cbn in Hq. lra.
    + apply ascending_cons. split; [|now apply IH].
      apply List.Forall_forall. intros q Hq.
      apply sort_insert_In in Hq as [->|Hq]; [lra|].
      rewrite List.Forall_forall in Hb. now apply Hb.
Qed.

Lemma sort_ascending l : ascending (Smoke.sort l).
Proof.
  induction l as [|a l IH]; cbn [Smoke.sort fold_right].
  - intros i j p q _ Hp. destruct i; discriminate.
  - now apply sort_insert_ascending.
Qed.

Lemma sort_insert_Permutation a l :
  Permutation (Smoke.sort_insert a l) (a :: l).
Proof.
  induction l as [|b l IH]; cbn [Smoke.sort_insert]; [reflexivity|].
  destruct (Rle_dec _ _); [reflexivity|].
  rewrite IH. apply perm_swap.
Qed.

Lemma sort_Permutation l : Permutation (Smoke.sort l) l.
Proof.
  induction l as [|a l IH]; cbn [Smoke.sort fold_right]; [reflexivity|].
  fold (Smoke.sort l). rewrite sort_insert_Permutation. now constructor.
Qed.

(** X12. One frame.  [Smoke.update] reads the clock once and never throws;
    the path is unchanged; the particles it keeps are exactly the updated
    particles that are alive, each at its place on the path (or pinned at
    the end), no more particles than before, in ascending order of
    distance. *)
Theorem update_frame (this : Smoke.t) (h : Host) :
  let time := clockSource h (ticks h) in
  let survivors :=
    List.filter SmokeParticle.isAlive
      (map (fun p => SmokeParticle.update p time) (Smoke.particles this)) in
  exists this' h',
    Smoke.update this h = Normal (this', h') /\
    Smoke.super this' = Smoke.super this /\
    ticks h' = S (ticks h) /\ draws h' = draws h /\
    Permutation (Smoke.particles this') (map (locate this) survivors) /\
    ascending (Smoke.particles this') /\
    Forall (fun q => SmokeParticle.isAlive q = true) (Smoke.particles this') /\
    (length (Smoke.particles this') <= length (Smoke.particles this))%nat.
Proof.
  intros time survivors. unfold Smoke.update, bind, millis, lift.
  fold time. fold survivors.
  set (sorted := Smoke.set_particles (Smoke.sort survivors) this).
  destruct (calculateParticlePositions_locate sorted) as
    (this' & Hcalc & Hsuper & Hps).
  { apply sort_ascending. }
  rewrite Hcalc. eexists _, _. split; [reflexivity|].
  cbn [ticks draws]. rewrite Hps.
  cbn [Smoke.particles Smoke.set_particles sorted].
  assert (Hloc : map (locate sorted) (Smoke.sort survivors) =
                 map (locate this) (Smoke.sort survivors)) by reflexivity.
  rewrite Hloc. split_and!; try reflexivity.
  - exact Hsuper.
  - apply Permutation_map, sort_Permutation.
  - intros i j p q Hij Hp Hq.
    change (map (locate this) (Smoke.sort survivors))
      with (locate this <$> Smoke.sort survivors) in Hp, Hq.
    rewrite list_lookup_fmap in Hp, Hq.
    destruct (Smoke.sort survivors !! i) as [p0|] eqn:Hp0; [|discriminate].
    destruct (Smoke.sort survivors !! j) as [q0|] eqn:Hq0; [|discriminate].
    cbn in Hp, Hq. injection Hp as <-. injection Hq as <-.
    rewrite !locate_distance.
    exact (sort_ascending survivors i j p0 q0 Hij Hp0 Hq0).
  - apply List.Forall_forall. intros q Hq.
    apply in_map_iff in Hq as (q0 & <- & Hq0).
    rewrite locate_isAlive. apply (proj1 (sort_In _ _)) in Hq0.
    unfold survivors in Hq0. now apply filter_In in Hq0.
  - rewrite length_map, sort_length. unfold survivors.
    etransitivity; [apply List.filter_length_le|]. now rewrite length_map.
Qed.

(** ** Smoke.prepareParticles *)

(** X13. [prepareParticles] discards the particles there were and leaves
    exactly two fresh ones: the first with distance 0 (its offset is
    [random(0)]), the second with a distance in [0, 2) (its offset is
    [random(2)]); the path is untouched. *)
Theorem prepareParticles_spec (this : Smoke.t) (h : Host) :
  wellFormedHost h ->
  exists p0 p1 h',
    Smoke.prepareParticles this h =
      Normal (Smoke.set_particles [p0; p1] this, h') /\
    SmokeParticle.distance p0 = 0 /\
    0 <= SmokeParticle.distance p1 < 2 /\
    freshParticle p0 /\ freshParticle p1 /\
    SmokeParticle.creationTime p0 = clockSource h (ticks h) /\
    SmokeParticle.creationTime p1 = clockSource h (S (ticks h)).
Proof.
  intros Hwf.
  unfold Smoke.prepareParticles. cbn [Smoke.prepareParticles_loop].
  destruct (spawnParticle_spec (Smoke.set_particles [] this) h)
    as (p0 & h1 & Hs0 & Hd0 & Hc0 & Hf0 & Hr1 & _ & Hk1 & Hdr1 & Ht1).
  destruct (spawnParticle_spec
              (Smoke.set_particles
                 (Smoke.particles (Smoke.set_particles [] this) ++ [p0])
                 (Smoke.set_particles [] this)) h1)
    as (p1 & h2 & Hs1 & Hd1 & Hc1 & Hf1 & _).
  exists p0, p1, h2. split_and!; try assumption.
  - unfold bind at 1. rewrite Hs0. unfold bind at 1. rewrite Hs1.
    reflexivity.
  - rewrite Hd0. simpl. lra.
  - rewrite Hd1, Hr1. cbn [Smoke.particles Smoke.set_particles app length].
    pose proof (Hwf (draws h1)) as Hrand. simpl. lra.
  - rewrite Hd1, Hr1. cbn [Smoke.particles Smoke.set_particles app length].
    pose proof (Hwf (draws h1)) as Hrand. simpl. lra.
  - now rewrite Hc1, Hk1, Ht1.
Qed.

Lemma prepareParticles_spec_witness :
  exists p0 p1 h',
    Smoke.prepareParticles sampleSmoke sampleHost =
      Normal (Smoke.set_particles [p0; p1] sampleSmoke, h') /\
    SmokeParticle.distance p0 = 0 /\
    0 <= SmokeParticle.distance p1 < 2 /\
    freshParticle p0 /\ freshParticle p1 /\
    SmokeParticle.creationTime p0 = clockSource sampleHost (ticks sampleHost) /\
    SmokeParticle.creationTime p1 =
      clockSource sampleHost (S (ticks sampleHost)).
Proof.
  apply (prepareParticles_spec sampleSmoke sampleHost).
  intros n. simpl. lra.
Defined.

(** ** Rendering *)

(** The dot of a particle lies on the circle of radius [gap] around the
    particle's position. *)
Lemma particle_draw_spec p h :
  exists cx cy,
    SmokeParticle.draw p h = Normal ([Ellipse cx cy 3], h) /\
    Rsqr (cx - p5.Vector.x (SmokeParticle.position p))
    + Rsqr (cy - p5.Vector.y (SmokeParticle.position p)) =
    Rsqr (SmokeParticle.gap p).
Proof.
  unfold SmokeParticle.draw, bind, noise, ret.
  eexists _, _. split; [reflexivity|].
  cbn [p5.Vector.add p5.Vector.fromAngle p5.Vector.x p5.Vector.y].
  set (theta := noiseField h (SmokeParticle.xoffAngle p) * TWO_PI).
  replace (Rsqr (SmokeParticle.gap p * cos theta
                 + p5.Vector.x (SmokeParticle.position p)
                 - p5.Vector.x (SmokeParticle.position p))
           + Rsqr (SmokeParticle.gap p * sin theta
                   + p5.Vector.y (SmokeParticle.position p)
                   - p5.Vector.y (SmokeParticle.position p)))
    with (Rsqr (SmokeParticle.gap p)
          * (Rsqr (sin theta) + Rsqr (cos theta)))
    by (unfold Rsqr; ring).
  rewrite sin2_cos2. ring.
Qed.

Lemma draw_loop_spec particles : forall particleColor h,
  exists dots,
    Smoke.draw_loop particleColor particles h = Normal (concat dots, h) /\
    Forall2
      (fun p dot =>
         exists cx cy,
           dot = [Fill (red particleColor) (green particleColor)
                    (blue particleColor) (SmokeParticle.alpha p);
                  Ellipse cx cy 3] /\
           Rsqr (cx - p5.Vector.x (SmokeParticle.position p))
           + Rsqr (cy - p5.Vector.y (SmokeParticle.position p)) =
           Rsqr (SmokeParticle.gap p))
      particles dots.
Proof.
  induction particles as [|p particles IH]; intros particleColor h.
  - exists []. split; [reflexivity|constructor].
  - cbn [Smoke.draw_loop].
    destruct (particle_draw_spec p h) as (cx & cy & Hdot & Hcircle).
    destruct (IH (setAlpha (SmokeParticle.alpha p) particleColor) h)
      as (dots & Hloop & Hall).
    exists ([fill (setAlpha (SmokeParticle.alpha p) particleColor);
             Ellipse cx cy 3] :: dots).
    split.
    + unfold bind at 1. rewrite Hdot. unfold bind at 1. rewrite Hloop.
      reflexivity.
    + constructor; [|exact Hall].
      exists cx, cy. split; [reflexivity|exact Hcircle].
Qed.

(** X14. [Smoke.draw] draws the particles and nothing else: between one
    [push]/[noStroke] and one [pop], for each particle in order, a [fill]
    in yellow with the particle's alpha and one ellipse of diameter 3 whose
    centre lies on the circle of radius [gap] around the particle's
    position.  The host is left as it was. *)
Theorem draw_spec (this : Smoke.t) (h : Host) :
  exists dots,
    Smoke.draw this h = Normal ([Push; NoStroke] ++ concat dots ++ [Pop], h) /\
    Forall2
      (fun p dot =>
         exists cx cy,
           dot = [Fill 255 255 0 (SmokeParticle.alpha p); Ellipse cx cy 3] /\
           Rsqr (cx - p5.Vector.x (SmokeParticle.position p))
           + Rsqr (cy - p5.Vector.y (SmokeParticle.position p)) =
           Rsqr (SmokeParticle.gap p))
      (Smoke.particles this) dots.
Proof.
  unfold Smoke.draw.
  destruct (draw_loop_spec (Smoke.particles this) (mkColor 255 255 0 255) h)
    as (dots & Hloop & Hall).
  exists dots. split; [|exact Hall].
  unfold bind. rewrite Hloop. reflexivity.
Qed.

(** ** The object store: addSegment, and the frame of copy *)

Lemma segmentValue_old (h h' : Store.store) e v :
  (forall r, (r < length h)%nat -> h' !! r = h !! r) ->
  Store.segmentValue h e = Some v ->
  Store.segmentValue h' e = Some v.
Proof.
  intros Hold Hv. unfold Store.segmentValue in *.
  destruct (h !! e) eqn:Hobj; [|discriminate].
  apply lookup_lt_Some in Hobj as Hlt. now rewrite Hold, Hobj.
Qed.

(** X15. [path.addSegment(segment)] on a well-formed path appends the
    segment: afterwards the path's segment sequence is the old one followed
    by [segment], its values are the old values followed by the segment's
    angle and distance, the path is still well formed with the same origin
    vector, and no object but the path's array has changed. *)
Theorem addSegment_appends (h : Store.store) (path segment : Store.ref)
    (angle distance : R) :
  Store.wellFormedPath h path ->
  h !! segment = Some (Store.PathSegmentObj angle distance) ->
  exists h' array,
    Store.Path.addSegment path segment h = Normal (tt, h') /\
    Store.arrayRef h path = Some array /\
    (forall r, r <> array -> h' !! r = h !! r) /\
    Store.segmentRefs h' path =
      (fun refs => refs ++ [segment]) <$> Store.segmentRefs h path /\
    Store.segmentValues h' path =
      (fun values => values ++ [(angle, distance)])
        <$> Store.segmentValues h path /\
    Store.wellFormedPath h' path /\
    Store.originRef h' path = Store.originRef h path.
Proof.
  intros Hwf Hseg.
  destruct (wellFormedPath_inv h path Hwf)
    as (o & oh & segs & els & vals & Hpath & Hsegs & Hvals).
  assert (Hne : segs <> path) by congruence.
  assert (Hne' : segs <> segment) by congruence.
  apply lookup_lt_Some in Hsegs as Hlt.
  set (h' := <[segs := Store.ArrayObj (els ++ [segment])]> h).
  assert (Hother : forall r, r <> segs -> h' !! r = h !! r).
  { intros r Hr. unfold h'. now rewrite list_lookup_insert_ne by congruence. }
  assert (Hrefs : Store.segmentRefs h path = Some els)
    by now apply segmentRefs_eq with o oh segs.
  assert (Hrefs' : Store.segmentRefs h' path = Some (els ++ [segment])).
  { unfold h'. rewrite (segmentRefs_insert h path o oh segs segs els)
      by assumption.
    now destruct (decide (segs = segs)). }
  assert (Hvals' : Store.segmentValues h' path =
                   Some (vals ++ [(angle, distance)])).
  { unfold Store.segmentValues. rewrite Hrefs'. apply mapM_Some.
    apply Forall2_app.
    - eapply Forall2_impl; [exact Hvals|].
      intros e v Hv. unfold Store.segmentValue in *.
      destruct (h !! e) as [obj|] eqn:Hobj; [|discriminate].
      assert (e <> segs) by (intros ->; rewrite Hsegs in Hobj;
                             injection Hobj as <-; discriminate).
      now rewrite Hother, Hobj.
    - constructor; [|constructor].
      unfold Store.segmentValue. now rewrite Hother, Hseg by congruence. }
  exists h', segs. split_and!.
  - exact (addSegment_spec h path segment o oh segs els Hpath Hsegs).
  - unfold Store.arrayRef. now rewrite Hpath.
  - exact Hother.
  - now rewrite Hrefs', Hrefs.
  - rewrite Hvals'. unfold Store.segmentValues. rewrite Hrefs.
    now rewrite (mapM_Some_2 _ _ _ Hvals).
  - unfold Store.wellFormedPath. rewrite Hvals'. eauto.
  - unfold Store.originRef. now rewrite Hother, Hpath by congruence.
Qed.

Lemma addSegment_appends_witness :
  exists h' array,
    Store.Path.addSegment 2%nat 3%nat sampleStore = Normal (tt, h') /\
    Store.arrayRef sampleStore 2%nat = Some array /\
    (forall r, r <> array -> h' !! r = sampleStore !! r) /\
    Store.segmentRefs h' 2%nat =
      (fun refs => refs ++ [3%nat]) <$> Store.segmentRefs sampleStore 2%nat /\
    Store.segmentValues h' 2%nat =
      (fun values => values ++ [(0.1, 2)])
        <$> Store.segmentValues sampleStore 2%nat /\
    Store.wellFormedPath h' 2%nat /\
    Store.originRef h' 2%nat = Store.originRef sampleStore 2%nat.
Proof.
  apply (addSegment_appends sampleStore 2%nat 3%nat 0.1 2).
  - unfold Store.wellFormedPath. simpl. eauto.
  - reflexivity.
Defined.

(** X16. The frame of [copy]: on a well-formed path [copy] changes no
    object that exists; it adds three objects and one per segment; the copy
    is well formed (so it can be copied and extended in turn) and has the
    original's heading, and the original is as well formed as before. *)
Theorem copy_frame (h : Store.store) (this : Store.ref) :
  Store.wellFormedPath h this ->
  exists path h' values,
    Store.Path.copy this h = Normal (path, h') /\
    Store.segmentValues h this = Some values /\
    (forall r, (r < length h)%nat -> h' !! r = h !! r) /\
    length h' = (length h + 3 + length values)%nat /\
    h !! path = None /\
    Store.wellFormedPath h' path /\
    Store.wellFormedPath h' this /\
    exists o heading a a',
      h !! this = Some (Store.PathObj o heading a) /\
      h' !! path = Some (Store.PathObj o heading a').
Proof.
  intros Hwf.
  destruct (wellFormedPath_inv h this Hwf)
    as (o & oh & segs & els & vals & Hthis & Hsegs & Hvals).
  assert (Hold : forall r, (r < length h)%nat ->
            Store.copiedStore h o oh vals !! r = h !! r)
    by (intros r Hr; now apply copiedStore_old).
  assert (Hrefs : Store.segmentRefs h this = Some els)
    by now apply segmentRefs_eq with o oh segs.
  assert (Hvalues : Store.segmentValues h this = Some vals).
  { unfold Store.segmentValues. rewrite Hrefs. now apply mapM_Some. }
  pose proof (Forall2_length _ _ _ Hvals) as Hlen.
  exists (length h + 2)%nat, (Store.copiedStore h o oh vals), vals.
  split_and!.
  - now apply copy_spec with segs els.
  - exact Hvalues.
  - exact Hold.
  - apply copiedStore_length.
  - apply lookup_ge_None. lia.
  - unfold Store.wellFormedPath, Store.segmentValues.
    rewrite (segmentRefs_eq _ _ o oh (length h + 1)%nat
               (seq (length h + 3) (length vals))
               (copiedStore_path h o oh vals) (copiedStore_array h o oh vals)).
    exists vals. apply mapM_Some.
    apply Forall2_same_length_lookup_2; [now rewrite length_seq|].
    intros i r v Hr Hv. apply lookup_seq in Hr as [-> Hi].
    unfold Store.segmentValue.
    rewrite (copiedStore_segment h o oh vals i v Hv). now destruct v.
  - apply lookup_lt_Some in Hthis as Hlt.
    apply lookup_lt_Some in Hsegs as Hlt'.
    unfold Store.wellFormedPath, Store.segmentValues.
    rewrite (segmentRefs_eq _ this o oh segs els)
      by (rewrite Hold by assumption; assumption).
    exists vals. apply mapM_Some.
    eapply Forall2_impl; [exact Hvals|].
    intros e v Hv. now apply segmentValue_old with h.
  - exists o, oh, segs, (length h + 1)%nat. split; [exact Hthis|].
    apply copiedStore_path.
Qed.

Lemma copy_frame_witness :
  exists path h' values,
    Store.Path.copy 2%nat sampleStore = Normal (path, h') /\
    Store.segmentValues sampleStore 2%nat = Some values /\
    (forall r, (r < length sampleStore)%nat -> h' !! r = sampleStore !! r) /\
    length h' = (length sampleStore + 3 + length values)%nat /\
    sampleStore !! path = None /\
    Store.wellFormedPath h' path /\
    Store.wellFormedPath h' 2%nat /\
    exists o heading a a',
      sampleStore !! 2%nat = Some (Store.PathObj o heading a) /\
      h' !! path = Some (Store.PathObj o heading a').
Proof.
  apply (copy_frame sampleStore 2%nat).
  unfold Store.wellFormedPath. simpl. eauto.
Defined.

(** ** Edge cases of construction *)

Lemma constructor_empty_parent_witness :
  exists s h',
    Smoke.constructor emptyFigure None None None sampleHost =
      Normal (s, h') /\
    Smoke.originPosition s = Path.originPosition emptyFigure /\
    Smoke.originHeading s = Path.originHeading emptyFigure.
Proof.
  apply (constructor_empty_parent emptyFigure None None sampleHost).
  reflexivity.
Defined.

Lemma constructor_negative_lengths_witness :
  exists s h',
    Smoke.constructor sampleFigure None (Some (-5)) (Some (-1)) sampleHost =
      Normal (s, h') /\
    Smoke.segments s = [].
Proof.
  apply (constructor_negative_lengths sampleFigure None (-5) (-1) sampleHost).
  - intros n. simpl. lra.
  - lra.
  - lra.
Defined.
